(** * Model of the titling handler of realtime-translator

    Shallow embedding of [src/src/websocket/titlingHandler.js] (class
    [TitlingHandler]): the per-connection registry, the audio buffer policy,
    the stream start/stop messages, the [setInterval] driven processing loop
    and the asynchronous backend call of [processAudioBuffers].

    - A WebSocket object [ws] is identified by a [nat] handle.
    - [this.activeConnections] is a JS [Map]; it keeps insertion order and
      [Map.prototype.set] on an existing key replaces the value in place.  It
      is modelled as an association list with exactly that behaviour.
    - [uuidv4()] draws from a supply counter held in the state.
    - [new Date()] is the [now] argument of the step that runs the code.
    - A [Buffer] is a [list byte]; [Buffer.from(data, 'base64')] is the
      decoded byte list, or [None] when that call throws.
    - The STT backend is external: the [await] in [processAudioBuffers]
      splits a tick in two.  The tick records the outstanding call in
      [pending]; a later [ESettle] step resolves or rejects one of them. *)

From Stdlib Require Import List Bool Arith Lia String Ascii NArith.
Import ListNotations.
Local Open Scope list_scope.

Definition bytes := list Byte.byte.

(** ** Configuration (constructor constants and environment) *)

Record Config := mkConfig {
  maxBufferSize : nat;       (* this.maxBufferSize *)
  chunkSize : nat;           (* this.chunkSize *)
  processingInterval : nat;  (* this.processingInterval *)
  sourceLanguage : string;   (* process.env.SOURCE_LANGUAGE || 'sr' *)
  targetLanguage : string;   (* process.env.TARGET_LANGUAGE || 'en' *)
  enableTranslation : bool   (* process.env.ENABLE_TRANSLATION === 'true' *)
}.

Definition defaultConfig : Config :=
  mkConfig (1024 * 1024) 1000 500 "sr"%string "en"%string false.

(** ** Data *)

Record Connection := mkConnection {
  id : nat;
  connectedAt : nat;
  audioBuffer : bytes;
  isStreaming : bool;
  lastActivity : nat
}.

(** Options object passed to [sttService.processAudio]. *)
Record ProcessOptions := mkOptions {
  opt_connectionId : nat;
  opt_sourceLanguage : string;
  opt_targetLanguage : string;
  opt_enableTranslation : bool
}.

(** An outstanding [await this.sttService.processAudio(audioChunk, ...)]. *)
Record Pending := mkPending {
  p_ws : nat;
  p_connection : Connection;   (* the [connection] captured by the tick *)
  p_chunk : bytes;
  p_options : ProcessOptions
}.

(** A result object of a backend; [text] is [None] when undefined. *)
Record SttResult := mkResult {
  r_text : option string;
  r_translatedText : option string;
  r_confidence : option nat;
  r_language : option string
}.

(** How an awaited backend call settles: resolved with a result or with
    [null] ([Resolved None]), or rejected with an error message. *)
Inductive Outcome :=
| Resolved (r : option SttResult)
| Rejected (message : string).

Record Subtitle := mkSubtitle {
  s_id : nat;
  s_text : string;
  s_translatedText : option string;
  s_confidence : option nat;
  s_timestamp : nat;
  s_connectionId : nat;
  s_language : option string
}.

(** Events of the [EventEmitter] ([this.emit]). *)
Inductive Event :=
| EvSubtitle (s : Subtitle)
| EvError (message : string).

(** Messages sent with [ws.send]. *)
Inductive ServerMsg :=
| MsgConnected (connectionId : nat)
| MsgStreamStarted
| MsgStreamStopped
| MsgPong
| MsgError (message : string).

Inductive Output :=
| Send (ws : nat) (m : ServerMsg)
| Emit (e : Event).

(** Parsed client messages ([message.type]). *)
Inductive ClientMsg :=
| MAudio (data : option bytes)
| MStartStream
| MStopStream
| MPing
| MOther (type : string).

Record State := mkState {
  activeConnections : list (nat * Connection);
  isProcessing : bool;
  processingLoop : bool;     (* an interval is registered with setInterval *)
  pending : list Pending;    (* backend calls being awaited *)
  uuidSupply : nat
}.

Definition initState : State := mkState [] false false [] 0.

(** ** The JS [Map] as an insertion-ordered association list *)

Fixpoint map_get {A} (k : nat) (m : list (nat * A)) : option A :=
  match m with
  | [] => None
  | (k', v) :: m' => if Nat.eqb k k' then Some v else map_get k m'
  end.

Fixpoint map_has {A} (k : nat) (m : list (nat * A)) : bool :=
  match m with
  | [] => false
  | (k', _) :: m' => Nat.eqb k k' || map_has k m'
  end.

Fixpoint map_replace {A} (k : nat) (v : A) (m : list (nat * A)) : list (nat * A) :=
  match m with
  | [] => []
  | (k', v') :: m' =>
      if Nat.eqb k k' then (k', v) :: m' else (k', v') :: map_replace k v m'
  end.

(** [Map.prototype.set]: replace in place, or append a new entry. *)
Definition map_set {A} (k : nat) (v : A) (m : list (nat * A)) : list (nat * A) :=
  if map_has k m then map_replace k v m else m ++ [(k, v)].

Fixpoint map_delete {A} (k : nat) (m : list (nat * A)) : list (nat * A) :=
  match m with
  | [] => []
  | (k', v') :: m' => if Nat.eqb k k' then m' else (k', v') :: map_delete k m'
  end.

(** ** [Buffer.prototype.slice] *)

(** [buf.slice(-n)]: a negative start is added to the length and clamped
    at 0; [-0] is [0], so [slice(-0)] is the whole buffer. *)
Definition slice_neg (b : bytes) (n : nat) : bytes :=
  if Nat.eqb n 0 then b else skipn (List.length b - n) b.

(** [buf.slice(0, n)] and [buf.slice(n)]. *)
Definition slice_to (b : bytes) (n : nat) : bytes := firstn n b.
Definition slice_from (b : bytes) (n : nat) : bytes := skipn n b.

(** ** State updates on the registry *)

Definition set_connections (st : State) (m : list (nat * Connection)) : State :=
  mkState m (isProcessing st) (processingLoop st) (pending st) (uuidSupply st).

(** Mutating a field of the connection object stored under [ws]. *)
Definition update_connection (st : State) (ws : nat) (c : Connection) : State :=
  set_connections st (map_replace ws c (activeConnections st)).

Definition with_buffer (c : Connection) (b : bytes) : Connection :=
  mkConnection (id c) (connectedAt c) b (isStreaming c) (lastActivity c).

Definition with_streaming (c : Connection) (s : bool) : Connection :=
  mkConnection (id c) (connectedAt c) (audioBuffer c) s (lastActivity c).

Definition with_activity (c : Connection) (t : nat) : Connection :=
  mkConnection (id c) (connectedAt c) (audioBuffer c) (isStreaming c) t.

(** ** Processing loop: [startProcessing] and [stopProcessing] *)

Definition startProcessing (st : State) : State :=
  if isProcessing st then st
  else mkState (activeConnections st) true true (pending st) (uuidSupply st).

(** [clearInterval] only when [this.processingLoop] is set. *)
Definition stopProcessing (st : State) : State :=
  if negb (isProcessing st) then st
  else mkState (activeConnections st) false
         (if processingLoop st then false else processingLoop st)
         (pending st) (uuidSupply st).

(** ** [handleConnection(ws)] *)

Definition handleConnection (ws now : nat) (st : State) : State * list Output :=
  let connectionId := uuidSupply st in
  let conn := mkConnection connectionId now [] false now in
  let st1 := mkState (map_set ws conn (activeConnections st)) (isProcessing st)
               (processingLoop st) (pending st) (S (uuidSupply st)) in
  let out := [Send ws (MsgConnected connectionId)] in
  (if negb (isProcessing st1) then startProcessing st1 else st1, out).

(** ** [handleAudioData(ws, audioData)] *)

Definition handleAudioData (cfg : Config) (ws : nat) (audioData : option bytes)
    (st : State) : State * list Output :=
  match map_get ws (activeConnections st) with
  | None => (st, [])
  | Some connection =>
      if negb (isStreaming connection) then (st, [])
      else
        match audioData with
        | None =>
            (* Buffer.from threw: the catch block *)
            (st, [Send ws (MsgError "Failed to process audio data"%string)])
        | Some audio =>
            let b := audioBuffer connection ++ audio in
            let b := if Nat.ltb (maxBufferSize cfg) (List.length b)
                     then slice_neg b (maxBufferSize cfg) else b in
            (update_connection st ws (with_buffer connection b), [])
        end
  end.

(** ** [handleStartStream(ws)] and [handleStopStream(ws)] *)

Definition handleStartStream (ws : nat) (st : State) : State * list Output :=
  match map_get ws (activeConnections st) with
  | None => (st, [])
  | Some connection =>
      let c := with_buffer (with_streaming connection true) [] in
      (update_connection st ws c, [Send ws MsgStreamStarted])
  end.

Definition handleStopStream (ws : nat) (st : State) : State * list Output :=
  match map_get ws (activeConnections st) with
  | None => (st, [])
  | Some connection =>
      (update_connection st ws (with_streaming connection false),
       [Send ws MsgStreamStopped])
  end.

(** ** [handleMessage(ws, message)] *)

Definition handleMessage (cfg : Config) (ws : nat) (message : ClientMsg) (now : nat)
    (st : State) : State * list Output :=
  match map_get ws (activeConnections st) with
  | None => (st, [])
  | Some connection =>
      let st := update_connection st ws (with_activity connection now) in
      match message with
      | MAudio data => handleAudioData cfg ws data st
      | MStartStream => handleStartStream ws st
      | MStopStream => handleStopStream ws st
      | MPing => (st, [Send ws MsgPong])
      | MOther t => (st, [Send ws (MsgError ("Unknown message type: " ++ t)%string)])
      end
  end.

(** ** [handleDisconnection(ws)] *)

Definition handleDisconnection (ws : nat) (st : State) : State :=
  let st1 := match map_get ws (activeConnections st) with
             | Some _ => set_connections st (map_delete ws (activeConnections st))
             | None => st
             end in
  if Nat.eqb (List.length (activeConnections st1)) 0 then stopProcessing st1 else st1.

(** ** [processAudioBuffers()] up to its [await]

    The synchronous part of a tick: select the first entry of the registry
    that is streaming with a non-empty buffer; if its buffer holds at least
    [chunkSize] bytes, cut the chunk off the front and start the backend
    call, which is recorded in [pending]. *)

Definition activeStreams (conns : list (nat * Connection)) : list (nat * Connection) :=
  filter (fun '(_, c) => isStreaming c && Nat.ltb 0 (List.length (audioBuffer c))) conns.

Definition options_for (cfg : Config) (c : Connection) : ProcessOptions :=
  mkOptions (id c) (sourceLanguage cfg) (targetLanguage cfg) (enableTranslation cfg).

Definition processAudioBuffers (cfg : Config) (st : State) : State :=
  match activeStreams (activeConnections st) with
  | [] => st
  | (ws, connection) :: _ =>
      if Nat.leb (chunkSize cfg) (List.length (audioBuffer connection)) then
        let audioChunk := slice_to (audioBuffer connection) (chunkSize cfg) in
        let c := with_buffer connection (slice_from (audioBuffer connection) (chunkSize cfg)) in
        let st1 := update_connection st ws c in
        mkState (activeConnections st1) (isProcessing st1) (processingLoop st1)
          (pending st1 ++ [mkPending ws c audioChunk (options_for cfg connection)])
          (uuidSupply st1)
      else st
  end.

(** ** [processAudioBuffers()] after its [await]

    The [k]-th outstanding call settles with [o] at time [now]. *)

Definition truthy_text (t : option string) : option string :=
  match t with
  | Some s => if String.eqb s ""%string then None else Some s
  | None => None
  end.

Definition settle (k : nat) (o : Outcome) (now : nat) (st : State) : State * list Output :=
  match nth_error (pending st) k with
  | None => (st, [])
  | Some p =>
      let rest := firstn k (pending st) ++ skipn (S k) (pending st) in
      let st1 := mkState (activeConnections st) (isProcessing st) (processingLoop st)
                   rest (uuidSupply st) in
      match o with
      | Rejected msg => (st1, [Emit (EvError msg)])
      | Resolved None => (st1, [])
      | Resolved (Some result) =>
          match truthy_text (r_text result) with
          | None => (st1, [])
          | Some text =>
              let sub := mkSubtitle (uuidSupply st1) text (r_translatedText result)
                           (r_confidence result) now (id (p_connection p))
                           (r_language result) in
              (mkState (activeConnections st1) (isProcessing st1) (processingLoop st1)
                 (pending st1) (S (uuidSupply st1)),
               [Emit (EvSubtitle sub)])
          end
      end
  end.

(** ** The server's event loop

    What [src/server.js] ([unnamed/part_000]) calls: the WebSocket
    [connection], [message] and [close]/[error] callbacks, the interval of
    [startProcessing] and the continuation of an awaited backend call.  The
    interval fires only while it is registered. *)

Inductive Ev :=
| EOpen (ws now : nat)
| EMsg (ws : nat) (m : ClientMsg) (now : nat)
| EClose (ws : nat)
| ETick
| ESettle (k : nat) (o : Outcome) (now : nat).

Definition step (cfg : Config) (st : State) (e : Ev) : State * list Output :=
  match e with
  | EOpen ws now => handleConnection ws now st
  | EMsg ws m now => handleMessage cfg ws m now st
  | EClose ws => (handleDisconnection ws st, [])
  | ETick => if processingLoop st then (processAudioBuffers cfg st, []) else (st, [])
  | ESettle k o now => settle k o now st
  end.

Fixpoint run (cfg : Config) (st : State) (es : list Ev) : State * list Output :=
  match es with
  | [] => (st, [])
  | e :: es' =>
      let '(st1, o1) := step cfg st e in
      let '(st2, o2) := run cfg st1 es' in
      (st2, o1 ++ o2)
  end.

(** Executions from the initial handler state. *)
Definition reachable (cfg : Config) (st : State) : Prop :=
  exists es, st = fst (run cfg initState es).

Definition keys_unique (st : State) : Prop :=
  NoDup (map fst (activeConnections st)).

(** Number of outstanding backend calls for the connection [ws]. *)
Definition in_flight (ws : nat) (st : State) : nat :=
  List.length (filter (fun p => Nat.eqb (p_ws p) ws) (pending st)).

(** The session the next tick selects, if any. *)
Definition selected (st : State) : option (nat * Connection) :=
  hd_error (activeStreams (activeConnections st)).

Definition emits_event (o : Output) : bool :=
  match o with Emit _ => true | Send _ _ => false end.

(** The last [n] bytes of [l] (all of [l] when it is shorter). *)
Definition suffix (n : nat) (l : bytes) : bytes := skipn (List.length l - n) l.

(** A sequence of [handleAudioData] calls with decoded audio on [ws]. *)
Fixpoint appendAll (cfg : Config) (ws : nat) (xs : list bytes) (st : State) : State :=
  match xs with
  | [] => st
  | x :: xs' => appendAll cfg ws xs' (fst (handleAudioData cfg ws (Some x) st))
  end.

(** Concrete executions used by the examples below. *)
Definition audio_bytes (n : nat) : bytes := repeat Byte.x00 n.

Definition trace_two_ticks : list Ev :=
  [EOpen 1 0; EMsg 1 MStartStream 1; EMsg 1 (MAudio (Some (audio_bytes 2000))) 2;
   ETick; ETick].

Definition state_after_one_tick : State :=
  fst (run defaultConfig initState (firstn 4 trace_two_ticks)).

Definition state_after_start : State :=
  fst (run defaultConfig initState [EOpen 1 0; EMsg 1 MStartStream 1]).

(** A sequence of [audio] messages on [ws], with their arrival times. *)
Definition audio_messages (ws : nat) (ds : list (option bytes * nat)) : list Ev :=
  List.map (fun '(d, t) => EMsg ws (MAudio d) t) ds.

(** Steps in which every backend call that settles returns [null]. *)
Definition only_absent (e : Ev) : bool :=
  match e with
  | ESettle _ (Resolved None) _ => true
  | ESettle _ _ _ => false
  | _ => true
  end.

(** Steps that neither open, close nor restart the stream of [ws]. *)
Definition keeps_session (ws : nat) (e : Ev) : bool :=
  match e with
  | EOpen w _ => negb (Nat.eqb w ws)
  | EClose w => negb (Nat.eqb w ws)
  | EMsg w MStartStream _ => negb (Nat.eqb w ws)
  | _ => true
  end.

(** ** [getStats()] *)

Record ConnStats := mkConnStats {
  cs_id : nat;
  cs_connectedAt : nat;
  cs_isStreaming : bool;
  cs_bufferSize : nat;
  cs_lastActivity : nat
}.

Record Stats := mkStats {
  stats_activeConnections : nat;
  stats_isProcessing : bool;
  stats_connections : list ConnStats
}.

Definition getStats (st : State) : Stats :=
  mkStats (List.length (activeConnections st)) (isProcessing st)
    (List.map (fun '(_, conn) =>
       mkConnStats (id conn) (connectedAt conn) (isStreaming conn)
         (List.length (audioBuffer conn)) (lastActivity conn))
       (activeConnections st)).

(** Every registered buffer holds at most [maxBufferSize] bytes. *)
Definition buffers_bounded (cfg : Config) (st : State) : Prop :=
  forall ws c, In (ws, c) (activeConnections st) ->
    List.length (audioBuffer c) <= maxBufferSize cfg.

(** Registered sessions carry distinct ids, all drawn from the supply. *)
Definition conn_ids (st : State) : list nat :=
  List.map (fun e => id (snd e)) (activeConnections st).

Definition ids_fresh (st : State) : Prop :=
  NoDup (conn_ids st) /\ forall i, In i (conn_ids st) -> i < uuidSupply st.

(** Steps that are not the continuation of a backend call. *)
Definition not_settle (e : Ev) : bool :=
  match e with ESettle _ _ _ => false | _ => true end.


(** ** [createSTTService(serviceType)] of the STT service factory

    [String.prototype.toLowerCase] is modelled on ASCII characters. *)

Inductive SttService :=
| MockSTTService
| GoogleSTTService
| OpenAISTTService
| LocalSTTService.

Definition lower_char (c : Ascii.ascii) : Ascii.ascii :=
  let n := Ascii.nat_of_ascii c in
  if (Nat.leb 65 n && Nat.leb n 90)%bool then Ascii.ascii_of_nat (n + 32) else c.

Fixpoint toLowerCase (s : string) : string :=
  match s with
  | EmptyString => EmptyString
  | String c s' => String (lower_char c) (toLowerCase s')
  end.

Fixpoint is_ascii (s : string) : bool :=
  match s with
  | EmptyString => true
  | String c s' => Nat.ltb (Ascii.nat_of_ascii c) 128 && is_ascii s'
  end.

Definition createSTTService (serviceType : string) : SttService :=
  let t := toLowerCase serviceType in
  if String.eqb t "mock" then MockSTTService
  else if String.eqb t "google" then GoogleSTTService
  else if String.eqb t "openai" then OpenAISTTService
  else if String.eqb t "local" then LocalSTTService
  else MockSTTService.

(** JS [a || b] on a string that may be undefined or empty. *)
Definition js_or (a : option string) (b : string) : string :=
  match a with
  | Some s => if String.eqb s "" then b else s
  | None => b
  end.

(** What an STT service's [processAudio] promise settles with. *)
Inductive CallResult (E : Type) :=
| Returned (r : option SttResult)
| Threw (e : E).
Arguments Returned {E} r.
Arguments Threw {E} e.

(** ** [MockSTTService] ([src/src/services/mockSttService.js])

    [Date.now()] is [now]; [generateMockConfidence()] ([Math.random]) is an
    opaque [confidence] argument.  The state updates of [processAudio] all
    happen before its [await], so one call is one step. *)

Module MockSTT.

Definition mockResponses : list string := [
  "Dobrodošli na konferenciju o tehnologiji.";
  "Hvala što ste došli na našu prezentaciju.";
  "Danas ćemo govoriti o umetnoj inteligenciji.";
  "Ova tehnologija će promeniti način kako radimo.";
  "Imamo nekoliko ključnih tačaka za diskusiju.";
  "Prvo, analizirajmo trenutno stanje industrije.";
  "Drugo, razmotrimo buduće trendove.";
  "Treće, identifikujmo mogućnosti za napredak.";
  "Zaključak je da je budućnost u našim rukama.";
  "Hvala vam na pažnji i pitanjima."]%string.

(** [translations.en] of [translateText]. *)
Definition translations_en : list (string * string) := [
  ("Dobrodošli na konferenciju o tehnologiji.", "Welcome to the technology conference.");
  ("Hvala što ste došli na našu prezentaciju.", "Thank you for coming to our presentation.");
  ("Danas ćemo govoriti o umetnoj inteligenciji.", "Today we will talk about artificial intelligence.");
  ("Ova tehnologija će promeniti način kako radimo.", "This technology will change the way we work.");
  ("Imamo nekoliko ključnih tačaka za diskusiju.", "We have several key points for discussion.");
  ("Prvo, analizirajmo trenutno stanje industrije.", "First, let's analyze the current state of the industry.");
  ("Drugo, razmotrimo buduće trendove.", "Second, let's consider future trends.");
  ("Treće, identifikujmo mogućnosti za napredak.", "Third, let's identify opportunities for progress.");
  ("Zaključak je da je budućnost u našim rukama.", "The conclusion is that the future is in our hands.");
  ("Hvala vam na pažnji i pitanjima.", "Thank you for your attention and questions.")]%string.

Fixpoint lookup (k : string) (m : list (string * string)) : option string :=
  match m with
  | [] => None
  | (k', v) :: m' => if String.eqb k k' then Some v else lookup k m'
  end.

(** [translations[targetLanguage]?.[text] || text].  Exact for the texts
    [processAudio] passes (the sentences of [mockResponses]), which are no
    property names of [Object.prototype] or of functions. *)
Definition translateText (text targetLanguage : string) : string :=
  if String.eqb targetLanguage "en" then js_or (lookup text translations_en) text
  else text.

Record MockState := mkMock {
  currentIndex : nat;
  lastProcessTime : nat;
  audioBuffer : bytes
}.

Definition initMock : MockState := mkMock 0 0 [].

Definition minInterval : nat := 1000.
Definition bufferThreshold : nat := 1000.

(** [getNextMockResponse()]: the response and the advanced index. *)
Definition getNextMockResponse (st : MockState) : string * nat :=
  (nth (currentIndex st) mockResponses ""%string,
   Nat.modulo (S (currentIndex st)) (List.length mockResponses)).

Definition processAudio (st : MockState) (chunk : bytes) (options : ProcessOptions)
    (now confidence : nat) : MockState * option SttResult :=
  let buf := audioBuffer st ++ chunk in
  let timeSinceLastProcess := now - lastProcessTime st in
  if (Nat.ltb (List.length buf) bufferThreshold || Nat.ltb timeSinceLastProcess minInterval)%bool
  then (mkMock (currentIndex st) (lastProcessTime st) buf, None)
  else
    let '(mockText, next) := getNextMockResponse st in
    let translated :=
      if (opt_enableTranslation options &&
          negb (String.eqb (opt_targetLanguage options) (opt_sourceLanguage options)))%bool
      then Some (translateText mockText (opt_targetLanguage options)) else None in
    (mkMock next now [],
     Some (mkResult (Some mockText) translated (Some confidence)
             (Some (js_or (Some (opt_sourceLanguage options)) "sr")))).

(** Calls made one after another: each is (chunk, options, [Date.now()],
    confidence); the results are recorded with the time of their call. *)
Fixpoint processAll (st : MockState) (calls : list (bytes * ProcessOptions * nat * nat))
    : MockState * list (nat * option SttResult) :=
  match calls with
  | [] => (st, [])
  | (chunk, options, now, confidence) :: calls' =>
      let '(st1, r) := processAudio st chunk options now confidence in
      let '(st2, rs) := processAll st1 calls' in
      (st2, (now, r) :: rs)
  end.

(** The times of the calls that returned a result, and their texts. *)
Definition result_times (rs : list (nat * option SttResult)) : list nat :=
  flat_map (fun '(t, r) => match r with Some _ => [t] | None => [] end) rs.

Definition result_texts (rs : list (nat * option SttResult)) : list (option string) :=
  flat_map (fun '(_, r) => match r with Some x => [r_text x] | None => [] end) rs.

(** Each time is at least [minInterval] after the previous one. *)
Fixpoint spaced (last : nat) (ts : list nat) : Prop :=
  match ts with
  | [] => True
  | t :: ts' => last + minInterval <= t /\ spaced t ts'
  end.

End MockSTT.

(** A transcription response of the Whisper style APIs ([transcription]
    of OpenAI, [response.data] of a local server); [resp_confidence] stands
    for the [Math.exp(avg_logprob)] / [0.9] value, carried opaquely. *)
Record TranscriptionResponse := mkResponse {
  resp_text : option string;
  resp_language : option string;
  resp_confidence : option nat
}.

(** [options.enableTranslation && options.targetLanguage !== options.sourceLanguage] *)
Definition wants_translation (options : ProcessOptions) : bool :=
  opt_enableTranslation options &&
  negb (String.eqb (opt_targetLanguage options) (opt_sourceLanguage options)).

(** The result object built from a response with truthy [text];
    [translated] is what [translateText] resolved to (it never rejects:
    it falls back to the text). *)
Definition whisper_result (options : ProcessOptions) (text : string)
    (resp : TranscriptionResponse) (translated : string) : SttResult :=
  mkResult (Some text)
    (if wants_translation options then Some translated else None)
    (resp_confidence resp)
    (Some (js_or (resp_language resp) (js_or (Some (opt_sourceLanguage options)) "sr"))).

(** ** [OpenAISTTService] ([src/src/services/openaiSttService.js])

    [apiKeySet] is [!!process.env.OPENAI_API_KEY]; [request] is how the
    temporary file creation and the Whisper request settle (a response, or
    a rejection with its message). *)

Module OpenAISTT.

Record OState := mkO { isInitialized : bool; audioBuffer : bytes }.

Definition initOpenAI : OState := mkO false [].

Definition bufferThreshold : N := 25000000.
Definition maxBufferSize : N := 25000000.

Definition processAudio (apiKeySet : bool) (st : OState) (chunk : bytes)
    (options : ProcessOptions) (request : TranscriptionResponse + string)
    (translated : string) : OState * CallResult string :=
  let initialized :=
    if isInitialized st then Some st
    else if apiKeySet then Some (mkO true (audioBuffer st)) else None in
  match initialized with
  | None => (st, Threw "OPENAI_API_KEY environment variable not set"%string)
  | Some st1 =>
      let buf := audioBuffer st1 ++ chunk in
      if N.ltb (N.of_nat (List.length buf)) bufferThreshold
      then (mkO true buf, Returned None)
      else
        let buf := if N.ltb maxBufferSize (N.of_nat (List.length buf))
                   then slice_neg buf (N.to_nat maxBufferSize) else buf in
        match request with
        | inr message => (mkO true buf, Threw message)
        | inl transcription =>
            match truthy_text (resp_text transcription) with
            | None => (mkO true [], Returned None)
            | Some text =>
                (mkO true [], Returned (Some (whisper_result options text transcription translated)))
            end
        end
  end.

(** Calls made one after another: (chunk, options, request, translation). *)
Fixpoint processAll (apiKeySet : bool) (st : OState)
    (calls : list (bytes * ProcessOptions * (TranscriptionResponse + string) * string))
    : OState * list (CallResult string) :=
  match calls with
  | [] => (st, [])
  | (chunk, options, request, translated) :: calls' =>
      let '(st1, r) := processAudio apiKeySet st chunk options request translated in
      let '(st2, rs) := processAll apiKeySet st1 calls' in
      (st2, r :: rs)
  end.

(** The audio passed by a sequence of calls. *)
Definition chunks_of (calls : list (bytes * ProcessOptions * (TranscriptionResponse + string) * string))
    : bytes :=
  List.concat (List.map (fun '(chunk, _, _, _) => chunk) calls).

End OpenAISTT.

(** ** [LocalSTTService] ([unnamed/part_001])

    [health] is how [axios.get(baseUrl/health)] settles (a status, or a
    rejection); [request] is how the transcription POST settles. *)

Module LocalSTT.

Inductive LocalError :=
| HealthCheckFailed (status : nat)
| RequestError (code : option string) (message : string).

Record LState := mkL { isInitialized : bool; audioBuffer : bytes }.

Definition initLocal : LState := mkL false [].

Definition bufferThreshold : N := 16000.
Definition maxBufferSize : N := 25000000.

(** [error.code === 'ECONNREFUSED' || error.code === 'ENOTFOUND'] *)
Definition is_connection_error (e : LocalError) : bool :=
  match e with
  | RequestError (Some code) _ =>
      (String.eqb code "ECONNREFUSED" || String.eqb code "ENOTFOUND")%bool
  | _ => false
  end.

Definition processAudio (health : nat + LocalError) (st : LState) (chunk : bytes)
    (options : ProcessOptions) (request : TranscriptionResponse + LocalError)
    (translated : string) : LState * CallResult LocalError :=
  let initialized :=
    if isInitialized st then inl st
    else match health with
         | inl status =>
             if Nat.eqb status 200 then inl (mkL true (audioBuffer st))
             else inr (HealthCheckFailed status)
         | inr e => inr e
         end in
  match initialized with
  | inr e => (st, Threw e)
  | inl st1 =>
      let buf := audioBuffer st1 ++ chunk in
      if N.ltb (N.of_nat (List.length buf)) bufferThreshold
      then (mkL true buf, Returned None)
      else
        let buf := if N.ltb maxBufferSize (N.of_nat (List.length buf))
                   then slice_neg buf (N.to_nat maxBufferSize) else buf in
        match request with
        | inr e => (mkL (negb (is_connection_error e)) buf, Threw e)
        | inl data =>
            match truthy_text (resp_text data) with
            | None => (mkL true [], Returned None)
            | Some text =>
                (mkL true [], Returned (Some (whisper_result options text data translated)))
            end
        end
  end.

(** Calls made one after another: (health, chunk, options, request,
    translation). *)
Fixpoint processAll (st : LState)
    (calls : list ((nat + LocalError) * bytes * ProcessOptions *
                   (TranscriptionResponse + LocalError) * string))
    : LState * list (CallResult LocalError) :=
  match calls with
  | [] => (st, [])
  | (health, chunk, options, request, translated) :: calls' =>
      let '(st1, r) := processAudio health st chunk options request translated in
      let '(st2, rs) := processAll st1 calls' in
      (st2, r :: rs)
  end.

(** The audio passed by a sequence of calls, and the calls whose health
    check answers with status 200. *)
Definition chunks_of (calls : list ((nat + LocalError) * bytes * ProcessOptions *
                                    (TranscriptionResponse + LocalError) * string)) : bytes :=
  List.concat (List.map (fun '(_, chunk, _, _, _) => chunk) calls).

Definition healthy (call : (nat + LocalError) * bytes * ProcessOptions *
                           (TranscriptionResponse + LocalError) * string) : Prop :=
  let '(health, _, _, _, _) := call in health = inl 200.

End LocalSTT.

(** ** [GoogleSTTService] ([src/src/services/googleSttService.js])

    [config_languageCode] is [this.config.languageCode]; [recognition] is
    how [processAudioChunk] settles: [data.results] (empty when the promise
    resolves with [null]) or a rejection with its message. *)

Module GoogleSTT.

Record Alternative := mkAlternative {
  transcript : option string;
  alt_confidence : option nat
}.

Record RecognitionResult := mkRecognition {
  alternatives : list Alternative;
  languageCode : option string;
  isFinal : bool
}.

Record GState := mkG {
  isInitialized : bool;
  config_languageCode : string;
  audioBuffer : bytes
}.

(** The constructor: [process.env.SOURCE_LANGUAGE || 'sr-RS']. *)
Definition initGoogle (sourceLanguageEnv : option string) : GState :=
  mkG false (js_or sourceLanguageEnv "sr-RS") [].

Definition processAudio (credentialsSet : bool) (st : GState) (chunk : bytes)
    (options : ProcessOptions) (recognition : list RecognitionResult + string)
    : GState * CallResult string :=
  let initialized :=
    if isInitialized st then Some st
    else if credentialsSet then Some (mkG true (config_languageCode st) (audioBuffer st))
    else None in
  match initialized with
  | None => (st, Threw "GOOGLE_APPLICATION_CREDENTIALS environment variable not set"%string)
  | Some st1 =>
      let buf := audioBuffer st1 ++ chunk in
      let code := js_or (Some (opt_sourceLanguage options)) (config_languageCode st1) in
      match recognition with
      | inr message => (mkG true (config_languageCode st1) buf, Threw message)
      | inl results =>
          let st2 := mkG true (config_languageCode st1) [] in
          match results with
          | [] => (st2, Returned None)
          | result :: _ =>
              match alternatives result with
              | [] => (st2, Threw "Cannot read properties of undefined (reading 'transcript')"%string)
              | alternative :: _ =>
                  (st2, Returned (Some (mkResult (transcript alternative)
                     (if opt_enableTranslation options then transcript alternative else None)
                     (alt_confidence alternative)
                     (Some (js_or (languageCode result) code)))))
              end
          end
      end
  end.

(** Calls made one after another: (chunk, options, recognition). *)
Fixpoint processAll (credentialsSet : bool) (st : GState)
    (calls : list (bytes * ProcessOptions * (list RecognitionResult + string)))
    : GState * list (CallResult string) :=
  match calls with
  | [] => (st, [])
  | (chunk, options, recognition) :: calls' =>
      let '(st1, r) := processAudio credentialsSet st chunk options recognition in
      let '(st2, rs) := processAll credentialsSet st1 calls' in
      (st2, r :: rs)
  end.

(** The audio passed by a sequence of calls, and the calls whose
    recognition request fails. *)
Definition chunks_of (calls : list (bytes * ProcessOptions * (list RecognitionResult + string)))
    : bytes :=
  List.concat (List.map (fun '(chunk, _, _) => chunk) calls).

Definition failing (call : bytes * ProcessOptions * (list RecognitionResult + string)) : Prop :=
  let '(_, _, recognition) := call in exists message, recognition = inr message.

End GoogleSTT.

(** * Lemmas on the registry *)

Section MapLemmas.
Context {A : Type}.

Lemma map_get_replace_same (k : nat) (v : A) m :
  map_get k (map_replace k v m) =
  match map_get k m with Some _ => Some v | None => None end.
Proof.
  induction m as [|[k' v'] m IH]; simpl; [reflexivity|].
  destruct (Nat.eqb k k') eqn:E; simpl; rewrite ?E; auto.
Qed.

Lemma map_get_replace_other (k k' : nat) (v : A) m :
  k' <> k -> map_get k' (map_replace k v m) = map_get k' m.
Proof.
  intros Hne; induction m as [|[k2 v2] m IH]; simpl; [reflexivity|].
  destruct (Nat.eqb k k2) eqn:E; simpl.
  - apply Nat.eqb_eq in E; subst k2.
    destruct (Nat.eqb k' k) eqn:E'; [apply Nat.eqb_eq in E'; congruence|reflexivity].
  - destruct (Nat.eqb k' k2); auto.
Qed.

Lemma map_keys_replace (k : nat) (v : A) m :
  map fst (map_replace k v m) = map fst m.
Proof.
  induction m as [|[k2 v2] m IH]; simpl; [reflexivity|].
  destruct (Nat.eqb k k2); simpl; congruence.
Qed.

Lemma map_has_In (k : nat) (m : list (nat * A)) :
  map_has k m = true <-> In k (map fst m).
Proof.
  induction m as [|[k2 v2] m IH]; simpl; [split; [discriminate|tauto]|].
  rewrite orb_true_iff, Nat.eqb_eq, IH; intuition congruence.
Qed.

Lemma map_get_has (k : nat) (m : list (nat * A)) :
  map_has k m = false -> map_get k m = None.
Proof.
  induction m as [|[k2 v2] m IH]; simpl; [reflexivity|].
  destruct (Nat.eqb k k2); simpl; [discriminate|auto].
Qed.

Lemma map_get_app_other (k : nat) m (k' : nat) (v : A) :
  k <> k' -> map_get k (m ++ [(k', v)]) = map_get k m.
Proof.
  intros Hne; induction m as [|[k2 v2] m IH]; simpl.
  - destruct (Nat.eqb k k') eqn:E; [apply Nat.eqb_eq in E; congruence|reflexivity].
  - destruct (Nat.eqb k k2); auto.
Qed.

Lemma map_get_app_none (k : nat) m (v : A) :
  map_get k m = None -> map_get k (m ++ [(k, v)]) = Some v.
Proof.
  induction m as [|[k2 v2] m IH]; simpl.
  - rewrite Nat.eqb_refl; reflexivity.
  - destruct (Nat.eqb k k2); [discriminate|auto].
Qed.

Lemma map_get_set_same (k : nat) (v : A) m :
  map_get k (map_set k v m) = Some v.
Proof.
  unfold map_set; destruct (map_has k m) eqn:H.
  - rewrite map_get_replace_same.
    destruct (map_get k m) eqn:G; [reflexivity|].
    exfalso; apply map_has_In in H.
    induction m as [|[k2 v2] m IH]; simpl in *; [contradiction|].
    destruct (Nat.eqb k k2) eqn:E; [discriminate|].
    apply Nat.eqb_neq in E; destruct H as [H|H]; [congruence|].
    apply IH; auto; apply map_has_In; auto.
  - apply map_get_app_none, map_get_has; auto.
Qed.

Lemma map_get_set_other (k k' : nat) (v : A) m :
  k' <> k -> map_get k' (map_set k v m) = map_get k' m.
Proof.
  intros Hne; unfold map_set; destruct (map_has k m).
  - apply map_get_replace_other; auto.
  - apply map_get_app_other; auto.
Qed.

Lemma map_keys_set_unique (k : nat) (v : A) m :
  NoDup (map fst m) -> NoDup (map fst (map_set k v m)).
Proof.
  intros H; unfold map_set; destruct (map_has k m) eqn:E.
  - rewrite map_keys_replace; auto.
  - rewrite map_app; simpl.
    apply NoDup_app; auto.
    + constructor; [simpl; tauto|constructor].
    + intros x Hx [Hy|[]]; subst x.
      assert (map_has k m = true) by (apply map_has_In; auto); congruence.
Qed.

Lemma map_keys_delete_incl (k x : nat) m :
  In x (map fst (map_delete k m)) -> In x (map fst (m : list (nat * A))).
Proof.
  induction m as [|[k2 v2] m IH]; simpl; [tauto|].
  destruct (Nat.eqb k k2); simpl; tauto.
Qed.

Lemma map_keys_delete_unique (k : nat) m :
  NoDup (map fst m) -> NoDup (map fst (map_delete k (m : list (nat * A)))).
Proof.
  induction m as [|[k2 v2] m IH]; simpl; intros H; [constructor|].
  inversion H as [|? ? Hn Hd]; subst.
  destruct (Nat.eqb k k2); simpl; auto.
  constructor; auto.
  intros Hin; apply Hn, (map_keys_delete_incl k); auto.
Qed.

Lemma map_get_delete_other (k k' : nat) m :
  k' <> k -> map_get k' (map_delete k (m : list (nat * A))) = map_get k' m.
Proof.
  intros Hne; induction m as [|[k2 v2] m IH]; simpl; [reflexivity|].
  destruct (Nat.eqb k k2) eqn:E; simpl.
  - apply Nat.eqb_eq in E; subst k2.
    destruct (Nat.eqb k' k) eqn:E'; [apply Nat.eqb_eq in E'; congruence|reflexivity].
  - destruct (Nat.eqb k' k2); auto.
Qed.

Lemma map_get_In_unique (k : nat) (v : A) m :
  NoDup (map fst m) -> In (k, v) m -> map_get k m = Some v.
Proof.
  induction m as [|[k2 v2] m IH]; simpl; intros Hd Hin; [contradiction|].
  inversion Hd as [|? ? Hn Hd']; subst.
  destruct Hin as [Heq|Hin].
  - inversion Heq; subst; rewrite Nat.eqb_refl; reflexivity.
  - destruct (Nat.eqb k k2) eqn:E; auto.
    apply Nat.eqb_eq in E; subst k2.
    exfalso; apply Hn; apply (in_map fst) in Hin; exact Hin.
Qed.

Lemma map_set_nonempty (k : nat) (v : A) m : map_set k v m <> [].
Proof.
  unfold map_set; destruct (map_has k m) eqn:E.
  - destruct m as [|[k2 v2] m]; simpl in *; [discriminate|].
    destruct (Nat.eqb k k2); discriminate.
  - destruct m; simpl; discriminate.
Qed.

Lemma map_set_length (k : nat) (v : A) m :
  List.length (map_set k v m) =
  if map_has k m then List.length m else S (List.length m).
Proof.
  unfold map_set; destruct (map_has k m).
  - rewrite <- (length_map fst), map_keys_replace, length_map; reflexivity.
  - rewrite length_app; simpl; lia.
Qed.

End MapLemmas.

(** * Frame lemmas for the handler's operations *)

Lemma keys_update_connection st ws c :
  map fst (activeConnections (update_connection st ws c)) = map fst (activeConnections st).
Proof. apply map_keys_replace. Qed.

Lemma handleMessage_frame cfg ws m now st :
  let st' := fst (handleMessage cfg ws m now st) in
  map fst (activeConnections st') = map fst (activeConnections st) /\
  isProcessing st' = isProcessing st /\ processingLoop st' = processingLoop st /\
  pending st' = pending st /\ uuidSupply st' = uuidSupply st.
Proof.
  unfold handleMessage; destruct (map_get ws (activeConnections st)) eqn:G;
    [|simpl; auto].
  destruct m as [d| | | |t]; simpl.
  - unfold handleAudioData; simpl; rewrite map_get_replace_same, G; simpl.
    destruct (isStreaming c); simpl; [|rewrite map_keys_replace; auto].
    destruct d; simpl; rewrite ?map_keys_replace; auto.
  - unfold handleStartStream; simpl; rewrite map_get_replace_same, G; simpl.
    rewrite !map_keys_replace; auto.
  - unfold handleStopStream; simpl; rewrite map_get_replace_same, G; simpl.
    rewrite !map_keys_replace; auto.
  - rewrite map_keys_replace; auto.
  - rewrite map_keys_replace; auto.
Qed.

Lemma processAudioBuffers_frame cfg st :
  let st' := processAudioBuffers cfg st in
  map fst (activeConnections st') = map fst (activeConnections st) /\
  isProcessing st' = isProcessing st /\ processingLoop st' = processingLoop st /\
  uuidSupply st' = uuidSupply st.
Proof.
  unfold processAudioBuffers.
  destruct (activeStreams (activeConnections st)) as [|[ws c] rest]; auto.
  destruct (Nat.leb (chunkSize cfg) (List.length (audioBuffer c))); auto.
  simpl; rewrite map_keys_replace; auto.
Qed.

Lemma settle_frame k o now st :
  let st' := fst (settle k o now st) in
  activeConnections st' = activeConnections st /\
  isProcessing st' = isProcessing st /\ processingLoop st' = processingLoop st.
Proof.
  unfold settle; destruct (nth_error (pending st) k); simpl; auto.
  destruct o as [[r|]|msg]; simpl; auto.
  destruct (truthy_text (r_text r)); simpl; auto.
Qed.

Lemma keys_unique_step cfg st e :
  keys_unique st -> keys_unique (fst (step cfg st e)).
Proof.
  unfold keys_unique; intros H; destruct e; simpl.
  - unfold handleConnection; simpl.
    destruct (isProcessing st); simpl; apply map_keys_set_unique; auto.
  - destruct (handleMessage_frame cfg ws m now st) as [-> _]; auto.
  - unfold handleDisconnection.
    destruct (map_get ws (activeConnections st)); simpl;
      destruct (Nat.eqb _ 0); unfold stopProcessing; simpl;
      repeat match goal with |- context [if ?b then _ else _] => destruct b end;
      simpl; auto using map_keys_delete_unique.
  - destruct (processingLoop st); simpl; auto.
    destruct (processAudioBuffers_frame cfg st) as [-> _]; auto.
  - destruct (settle_frame k o now st) as [-> _]; auto.
Qed.

Lemma run_fst cfg st e es :
  fst (run cfg st (e :: es)) = fst (run cfg (fst (step cfg st e)) es).
Proof.
  simpl; destruct (step cfg st e) as [s l]; simpl; destruct (run cfg s es); reflexivity.
Qed.

Lemma run_snd cfg st e es :
  snd (run cfg st (e :: es)) = snd (step cfg st e) ++ snd (run cfg (fst (step cfg st e)) es).
Proof.
  simpl; destruct (step cfg st e) as [s l]; simpl; destruct (run cfg s es); reflexivity.
Qed.

Lemma keys_unique_run cfg es : forall st,
  keys_unique st -> keys_unique (fst (run cfg st es)).
Proof.
  induction es as [|e es IH]; intros st H; [exact H|].
  rewrite run_fst; apply IH, keys_unique_step; auto.
Qed.

Lemma reachable_keys_unique cfg st : reachable cfg st -> keys_unique st.
Proof.
  intros [es ->]; apply keys_unique_run; constructor.
Qed.

(** * C1: outstanding backend calls per session *)

(** C1 (as stated): at most one backend call per session is in flight in
    any execution.  False: with 2000 buffered bytes, two ticks that fire
    while the first call is outstanding start two calls for connection 1. *)
Lemma C1_two_calls_in_flight :
  ~ (forall es h, in_flight h (fst (run defaultConfig initState es)) <= 1).
Proof.
  intros H; specialize (H trace_two_ticks 1); vm_compute in H; lia.
Qed.

(** C1 (amended): a tick selects the first streaming session with a
    non-empty buffer whatever calls are outstanding for it; when it holds at
    least [chunkSize] bytes the tick starts one more call for it. *)
Theorem C1_tick_ignores_in_flight cfg st ws c :
  selected st = Some (ws, c) ->
  chunkSize cfg <= List.length (audioBuffer c) ->
  in_flight ws (processAudioBuffers cfg st) = S (in_flight ws st).
Proof.
  unfold selected, processAudioBuffers, in_flight; intros Hs Hl.
  destruct (activeStreams (activeConnections st)) as [|[ws' c'] rest];
    simpl in Hs; inversion Hs; subst ws' c'.
  apply Nat.leb_le in Hl; rewrite Hl; simpl.
  rewrite filter_app, length_app; simpl; rewrite Nat.eqb_refl; simpl; lia.
Qed.

Lemma C1_tick_ignores_in_flight_witness :
  selected state_after_one_tick =
    Some (1, mkConnection 0 0 (audio_bytes 1000) true 2) /\
  in_flight 1 state_after_one_tick = 1 /\
  in_flight 1 (processAudioBuffers defaultConfig state_after_one_tick) = 2.
Proof.
  split; [vm_compute; reflexivity|].
  split; [vm_compute; reflexivity|].
  rewrite (C1_tick_ignores_in_flight defaultConfig state_after_one_tick 1
             (mkConnection 0 0 (audio_bytes 1000) true 2)).
  - vm_compute; reflexivity.
  - vm_compute; reflexivity.
  - vm_compute; apply Nat.le_refl.
Defined.

(** * C2: the bounded buffer *)

Lemma suffix_idem n a x :
  suffix n (suffix n a ++ x) = suffix n (a ++ x).
Proof.
  unfold suffix.
  set (k := List.length a - n).
  assert (Hk : skipn k a ++ x = skipn k (a ++ x)).
  { rewrite skipn_app; replace (k - List.length a) with 0 by (unfold k; lia); reflexivity. }
  rewrite Hk, skipn_skipn, length_skipn, length_app; f_equal.
  unfold k; lia.
Qed.

Lemma suffix_length n l : List.length (suffix n l) = Nat.min n (List.length l).
Proof. unfold suffix; rewrite length_skipn; lia. Qed.

Lemma suffix_app_long n b y :
  n <= List.length y -> suffix n (b ++ y) = suffix n y.
Proof.
  intros H; unfold suffix; rewrite skipn_app, length_app, skipn_all2 by lia.
  simpl; f_equal; lia.
Qed.

Lemma handleAudioData_streaming cfg ws x st c :
  0 < maxBufferSize cfg ->
  map_get ws (activeConnections st) = Some c -> isStreaming c = true ->
  map_get ws (activeConnections (fst (handleAudioData cfg ws (Some x) st))) =
    Some (with_buffer c (suffix (maxBufferSize cfg) (audioBuffer c ++ x))).
Proof.
  intros Hm Hg Hs; unfold handleAudioData; rewrite Hg, Hs; simpl.
  rewrite map_get_replace_same, Hg; do 2 f_equal.
  unfold slice_neg, suffix.
  destruct (Nat.ltb _ _) eqn:E.
  - destruct (Nat.eqb_spec (maxBufferSize cfg) 0); [lia|reflexivity].
  - apply Nat.ltb_ge in E; replace (_ - _) with 0 by lia; reflexivity.
Qed.

Lemma appendAll_buffer cfg ws xs : forall st c,
  0 < maxBufferSize cfg -> xs <> [] ->
  map_get ws (activeConnections st) = Some c -> isStreaming c = true ->
  map_get ws (activeConnections (appendAll cfg ws xs st)) =
    Some (with_buffer c (suffix (maxBufferSize cfg) (audioBuffer c ++ List.concat xs))).
Proof.
  induction xs as [|x xs IH]; intros st c Hm Hne Hg Hs; [congruence|].
  cbn [appendAll]; destruct xs as [|x' xs'].
  - cbn [appendAll List.concat]; rewrite (handleAudioData_streaming cfg ws x st c Hm Hg Hs), app_nil_r; reflexivity.
  - rewrite (IH _ (with_buffer c (suffix (maxBufferSize cfg) (audioBuffer c ++ x))));
      [|auto|discriminate|apply handleAudioData_streaming; auto|exact Hs].
    destruct c; unfold with_buffer; cbn [List.concat audioBuffer].
    rewrite suffix_idem, <- !app_assoc; reflexivity.
Qed.

(** C2: on a streaming session, after every non-empty sequence of appended
    chunks the buffer is the suffix of at most [maxBufferSize] bytes of the
    old buffer followed by the chunks; when the appended bytes exceed
    [maxBufferSize], it has exactly that length and holds their most recent
    bytes. *)
Theorem C2_buffer_bounded_suffix cfg ws xs st c :
  0 < maxBufferSize cfg -> xs <> [] ->
  map_get ws (activeConnections st) = Some c -> isStreaming c = true ->
  exists c',
    map_get ws (activeConnections (appendAll cfg ws xs st)) = Some c' /\
    audioBuffer c' = suffix (maxBufferSize cfg) (audioBuffer c ++ List.concat xs) /\
    List.length (audioBuffer c') <= maxBufferSize cfg /\
    (maxBufferSize cfg < List.length (List.concat xs) ->
     List.length (audioBuffer c') = maxBufferSize cfg /\
     audioBuffer c' = suffix (maxBufferSize cfg) (List.concat xs)).
Proof.
  intros Hm Hne Hg Hs.
  eexists; split; [apply appendAll_buffer; eauto|]; simpl.
  split; [reflexivity|].
  split; [rewrite suffix_length; lia|].
  intros Hlt; split.
  - rewrite suffix_length, length_app; lia.
  - apply suffix_app_long; lia.
Qed.

Lemma C2_buffer_bounded_suffix_witness :
  exists c',
    map_get 1 (activeConnections
      (appendAll (mkConfig 4 2 500 "sr"%string "en"%string false) 1
         [audio_bytes 3; [Byte.x01; Byte.x02; Byte.x03]]
         (mkState [(1, mkConnection 0 0 [] true 0)] true true [] 1))) = Some c' /\
    audioBuffer c' = [Byte.x00; Byte.x01; Byte.x02; Byte.x03].
Proof.
  destruct (C2_buffer_bounded_suffix (mkConfig 4 2 500 "sr"%string "en"%string false) 1
              [audio_bytes 3; [Byte.x01; Byte.x02; Byte.x03]]
              (mkState [(1, mkConnection 0 0 [] true 0)] true true [] 1)
              (mkConnection 0 0 [] true 0)) as [c' [H1 [H2 _]]].
  - simpl; lia.
  - discriminate.
  - reflexivity.
  - reflexivity.
  - exists c'; split; [exact H1|]; rewrite H2; vm_compute; reflexivity.
Defined.

(** * C3: draining one chunk *)

Lemma selected_registered st ws c :
  keys_unique st -> selected st = Some (ws, c) ->
  map_get ws (activeConnections st) = Some c.
Proof.
  unfold selected, keys_unique; intros Hk Hs.
  apply map_get_In_unique; [exact Hk|].
  destruct (activeStreams (activeConnections st)) as [|p rest] eqn:E;
    simpl in Hs; inversion Hs; subst p.
  assert (Hin : In (ws, c) (activeStreams (activeConnections st))) by (rewrite E; left; reflexivity).
  unfold activeStreams in Hin; apply filter_In in Hin; tauto.
Qed.

(** C3: when the tick selects the session [ws] whose buffer has length
    [L >= chunkSize], it starts exactly one backend call with the first
    [chunkSize] bytes and the configured options, and leaves the buffer
    from offset [chunkSize] on ([L - chunkSize] bytes, in order); when
    [L < chunkSize] the tick changes nothing and starts no call. *)
Theorem C3_drain_fifo cfg st ws c :
  keys_unique st -> selected st = Some (ws, c) ->
  let buf := audioBuffer c in
  let st' := processAudioBuffers cfg st in
  (chunkSize cfg <= List.length buf ->
     map_get ws (activeConnections st') =
       Some (with_buffer c (skipn (chunkSize cfg) buf)) /\
     pending st' = pending st ++
       [mkPending ws (with_buffer c (skipn (chunkSize cfg) buf))
          (firstn (chunkSize cfg) buf)
          (mkOptions (id c) (sourceLanguage cfg) (targetLanguage cfg)
             (enableTranslation cfg))] /\
     List.length (firstn (chunkSize cfg) buf) = chunkSize cfg /\
     List.length (skipn (chunkSize cfg) buf) = List.length buf - chunkSize cfg /\
     firstn (chunkSize cfg) buf ++ skipn (chunkSize cfg) buf = buf) /\
  (List.length buf < chunkSize cfg -> st' = st).
Proof.
  intros Hk Hs buf st'.
  pose proof (selected_registered st ws c Hk Hs) as Hg.
  unfold st', processAudioBuffers; unfold selected in Hs.
  destruct (activeStreams (activeConnections st)) as [|[ws' c'] rest];
    simpl in Hs; inversion Hs; subst ws' c'.
  split.
  - intros Hl; apply Nat.leb_le in Hl as Hb; subst buf; rewrite Hb; simpl.
    split; [rewrite map_get_replace_same, Hg; reflexivity|].
    split; [reflexivity|].
    split; [rewrite length_firstn; lia|].
    split; [apply length_skipn|apply firstn_skipn].
  - intros Hl; assert (Hb : Nat.leb (chunkSize cfg) (List.length buf) = false)
      by (apply Nat.leb_gt; exact Hl).
    subst buf; rewrite Hb; reflexivity.
Qed.

Lemma C3_drain_fifo_witness :
  keys_unique state_after_one_tick /\
  selected state_after_one_tick = Some (1, mkConnection 0 0 (audio_bytes 1000) true 2) /\
  map_get 1 (activeConnections (processAudioBuffers defaultConfig state_after_one_tick)) =
    Some (mkConnection 0 0 [] true 2).
Proof.
  assert (Hk : keys_unique state_after_one_tick)
    by (unfold keys_unique; vm_compute; repeat constructor; intros []).
  assert (Hs : selected state_after_one_tick =
                 Some (1, mkConnection 0 0 (audio_bytes 1000) true 2))
    by (vm_compute; reflexivity).
  split; [exact Hk|]; split; [exact Hs|].
  destruct (C3_drain_fifo defaultConfig state_after_one_tick 1
              (mkConnection 0 0 (audio_bytes 1000) true 2) Hk Hs) as [Hge _].
  destruct Hge as [Hg _]; [vm_compute; apply Nat.le_refl|].
  rewrite Hg; vm_compute; reflexivity.
Defined.

(** * C4: opening a connection *)

(** C4 (as stated): opening an already registered handle fails and does
    not replace its session.  False: after [open 1] and [start_stream] on
    1, a second [open 1] succeeds (the [connected] message is sent) and the
    streaming session is replaced by a fresh one. *)
Lemma C4_reopen_replaces_session :
  map_get 1 (activeConnections state_after_start) =
    Some (mkConnection 0 0 [] true 1) /\
  handleConnection 1 5 state_after_start =
    (mkState [(1, mkConnection 1 5 [] false 5)] true true [] 2,
     [Send 1 (MsgConnected 1)]).
Proof. split; vm_compute; reflexivity. Qed.

(** C4 (amended): [handleConnection ws] never fails: it stores under [ws]
    a fresh session (new id, [isStreaming = false], empty buffer, connect
    and activity time [now]), sends [connected], leaves every other handle
    alone and makes the processing loop run; an existing session under [ws]
    is replaced in place, so the registry does not grow. *)
Theorem C4_open_registers_fresh ws now st :
  let '(st', out) := handleConnection ws now st in
  map_get ws (activeConnections st') =
    Some (mkConnection (uuidSupply st) now [] false now) /\
  out = [Send ws (MsgConnected (uuidSupply st))] /\
  uuidSupply st' = S (uuidSupply st) /\
  (forall ws', ws' <> ws ->
     map_get ws' (activeConnections st') = map_get ws' (activeConnections st)) /\
  List.length (activeConnections st') =
    (if map_has ws (activeConnections st) then List.length (activeConnections st)
     else S (List.length (activeConnections st))) /\
  isProcessing st' = true.
Proof.
  unfold handleConnection; simpl.
  destruct (isProcessing st) eqn:P; simpl;
    (split; [apply map_get_set_same|]);
    (split; [reflexivity|]); (split; [reflexivity|]);
    (split; [intros; apply map_get_set_other; auto|]);
    (split; [apply map_set_length|]); auto.
Qed.

(** * C5: a failing backend call *)

(** C5: when the [k]-th outstanding call is rejected with [msg], exactly
    one [error] event carrying [msg] is emitted; the registry (streaming
    flags and buffers: the chunk is not put back) and the processing loop
    are untouched; the resulting state is the one an absent result would
    have left, so the next tick runs as usual. *)
Theorem C5_backend_failure k msg now st p :
  nth_error (pending st) k = Some p ->
  let '(st', out) := settle k (Rejected msg) now st in
  out = [Emit (EvError msg)] /\
  (forall ws, map_get ws (activeConnections st') = map_get ws (activeConnections st)) /\
  isProcessing st' = isProcessing st /\
  processingLoop st' = processingLoop st /\
  List.length (pending st') = List.length (pending st) - 1 /\
  st' = fst (settle k (Resolved None) now st).
Proof.
  intros Hp; unfold settle; rewrite Hp; cbn -[skipn firstn List.length].
  split; [reflexivity|]; split; [reflexivity|].
  split; [reflexivity|]; split; [reflexivity|].
  split; [|reflexivity].
  assert (Hlt : k < List.length (pending st))
    by (apply nth_error_Some; rewrite Hp; discriminate).
  rewrite length_app, length_firstn, length_skipn; lia.
Qed.

Lemma C5_backend_failure_witness :
  let st1 := fst (settle 0 (Rejected "quota exceeded"%string) 3 state_after_one_tick) in
  snd (settle 0 (Rejected "quota exceeded"%string) 3 state_after_one_tick) =
    [Emit (EvError "quota exceeded"%string)] /\
  map_get 1 (activeConnections st1) = Some (mkConnection 0 0 (audio_bytes 1000) true 2) /\
  List.map p_chunk (pending (processAudioBuffers defaultConfig st1)) = [audio_bytes 1000].
Proof.
  pose proof (C5_backend_failure 0 "quota exceeded"%string 3 state_after_one_tick
                (mkPending 1 (mkConnection 0 0 (audio_bytes 1000) true 2)
                   (audio_bytes 1000) (mkOptions 0 "sr"%string "en"%string false))) as H.
  destruct (settle 0 (Rejected "quota exceeded"%string) 3 state_after_one_tick)
    as [st1 out] eqn:E.
  destruct H as [Hout [Hget _]]; [vm_compute; reflexivity|].
  simpl; split; [exact Hout|]; split.
  - rewrite Hget; vm_compute; reflexivity.
  - vm_compute in E; inversion E; subst st1; vm_compute; reflexivity.
Defined.

(** * C6: start_stream *)

(** C6: a [start_stream] message on a registered session sets
    [isStreaming] and leaves an empty buffer, whatever was buffered. *)
Theorem C6_start_stream_empties_buffer cfg ws now st c :
  map_get ws (activeConnections st) = Some c ->
  let '(st', out) := handleMessage cfg ws MStartStream now st in
  map_get ws (activeConnections st') =
    Some (mkConnection (id c) (connectedAt c) [] true now) /\
  out = [Send ws MsgStreamStarted].
Proof.
  intros Hg; unfold handleMessage; rewrite Hg; simpl.
  unfold handleStartStream; simpl.
  rewrite map_get_replace_same, Hg; simpl.
  rewrite map_get_replace_same, map_get_replace_same, Hg; auto.
Qed.

Lemma C6_start_stream_empties_buffer_witness :
  map_get 1 (activeConnections state_after_one_tick) =
    Some (mkConnection 0 0 (audio_bytes 1000) true 2) /\
  map_get 1 (activeConnections
    (fst (handleMessage defaultConfig 1 MStartStream 7 state_after_one_tick))) =
    Some (mkConnection 0 0 [] true 7).
Proof.
  assert (Hg : map_get 1 (activeConnections state_after_one_tick) =
                 Some (mkConnection 0 0 (audio_bytes 1000) true 2))
    by (vm_compute; reflexivity).
  split; [exact Hg|].
  pose proof (C6_start_stream_empties_buffer defaultConfig 1 7 state_after_one_tick _ Hg) as H.
  destruct (handleMessage defaultConfig 1 MStartStream 7 state_after_one_tick) as [st' out].
  destruct H as [H _]; exact H.
Defined.

(** * C7: audio while not streaming *)

Lemma audio_not_streaming cfg ws d t st c :
  map_get ws (activeConnections st) = Some c -> isStreaming c = false ->
  handleMessage cfg ws (MAudio d) t st = (update_connection st ws (with_activity c t), []).
Proof.
  intros Hg Hs; unfold handleMessage; rewrite Hg; simpl.
  unfold handleAudioData; simpl; rewrite map_get_replace_same, Hg; simpl.
  rewrite Hs; reflexivity.
Qed.

(** C7: every sequence of [audio] messages on a session that is not
    streaming leaves its buffer and flag as they were and sends nothing
    (in particular no error). *)
Theorem C7_audio_dropped_when_not_streaming cfg ws ds : forall st c,
  map_get ws (activeConnections st) = Some c -> isStreaming c = false ->
  let '(st', out) := run cfg st (audio_messages ws ds) in
  (exists c', map_get ws (activeConnections st') = Some c' /\
              audioBuffer c' = audioBuffer c /\ isStreaming c' = false) /\
  out = [].
Proof.
  induction ds as [|[d t] ds IH]; intros st c Hg Hs; simpl.
  - split; [exists c; auto|reflexivity].
  - rewrite (audio_not_streaming cfg ws d t st c Hg Hs).
    assert (Hg' : map_get ws (activeConnections (update_connection st ws (with_activity c t)))
                  = Some (with_activity c t))
      by (unfold update_connection; simpl; rewrite map_get_replace_same, Hg; reflexivity).
    specialize (IH _ _ Hg' Hs).
    destruct (run cfg _ (audio_messages ws ds)) as [st' out].
    destruct IH as [[c' [H1 [H2 H3]]] H4]; split; [exists c'; auto|subst out; reflexivity].
Qed.

Lemma C7_audio_dropped_when_not_streaming_witness :
  let st := mkState [(1, mkConnection 0 0 (audio_bytes 3) false 0)] true true [] 1 in
  run defaultConfig st (audio_messages 1 [(Some (audio_bytes 5), 1); (None, 2)]) =
    (mkState [(1, mkConnection 0 0 (audio_bytes 3) false 2)] true true [] 1, []).
Proof.
  intros st.
  pose proof (C7_audio_dropped_when_not_streaming defaultConfig 1
                [(Some (audio_bytes 5), 1); (None, 2)] st
                (mkConnection 0 0 (audio_bytes 3) false 0) eq_refl eq_refl) as H.
  destruct (run defaultConfig st _) as [st' out] eqn:E.
  destruct H as [_ Hout]; subst out.
  vm_compute in E; inversion E; reflexivity.
Defined.

(** * C8: the processing loop follows the registry *)

Definition timer_inv (st : State) : Prop :=
  (processingLoop st = true <-> activeConnections st <> []) /\
  isProcessing st = processingLoop st.

Lemma keys_nil {A} (m m' : list (nat * A)) :
  map fst m = map fst m' -> (m <> [] <-> m' <> []).
Proof. destruct m, m'; simpl; intuition discriminate. Qed.

Lemma timer_inv_step cfg st e : timer_inv st -> timer_inv (fst (step cfg st e)).
Proof.
  unfold timer_inv; intros [Hiff Heq]; destruct e; simpl.
  - unfold handleConnection; simpl.
    destruct (isProcessing st) eqn:P; simpl.
    + rewrite <- Heq; split; [|reflexivity].
      split; [intros _; apply map_set_nonempty|reflexivity].
    + split; [|reflexivity].
      split; [intros _; apply map_set_nonempty|reflexivity].
  - destruct (handleMessage_frame cfg ws m now st) as [Hk [Hp [Hl _]]].
    rewrite Hp, Hl, (keys_nil _ _ Hk); auto.
  - unfold handleDisconnection.
    assert (Hst1 : forall st1 : State,
              (activeConnections st1 <> [] -> activeConnections st <> []) ->
              isProcessing st1 = isProcessing st ->
              processingLoop st1 = processingLoop st ->
              timer_inv (if Nat.eqb (List.length (activeConnections st1)) 0
                         then stopProcessing st1 else st1)).
    { intros st1 Hne Hp Hl; unfold timer_inv.
      destruct (Nat.eqb_spec (List.length (activeConnections st1)) 0) as [E|E].
      - apply length_zero_iff_nil in E.
        unfold stopProcessing; rewrite Hp; destruct (isProcessing st) eqn:P; simpl.
        + destruct (processingLoop st1); simpl; rewrite E;
            (split; [split; [discriminate|tauto]|reflexivity]).
        + rewrite Hl, <- Heq, Hp, E; split; [split; [discriminate|tauto]|reflexivity].
      - assert (activeConnections st1 <> [])
          by (intros H; rewrite H in E; simpl in E; lia).
        rewrite Hp, Hl, Heq; split; [split; [auto|intros _; apply Hiff; auto]|reflexivity]. }
    destruct (map_get ws (activeConnections st)); apply Hst1; simpl; auto.
    intros H Hn; apply H; rewrite Hn; reflexivity.
  - destruct (processingLoop st) eqn:L; simpl; [|split; [rewrite L; auto|congruence]].
    destruct (processAudioBuffers_frame cfg st) as [Hk [Hp [Hl _]]].
    split.
    + rewrite Hl, L; split; intros _; [|reflexivity].
      apply (proj2 (keys_nil _ _ Hk)), Hiff; reflexivity.
    + rewrite Hp, Hl, Heq, L; reflexivity.
  - destruct (settle_frame k o now st) as [Hc [Hp Hl]].
    rewrite Hc, Hp, Hl; auto.
Qed.

Lemma timer_inv_run cfg es : forall st, timer_inv st -> timer_inv (fst (run cfg st es)).
Proof.
  induction es as [|e es IH]; intros st H; [exact H|].
  rewrite run_fst; apply IH, timer_inv_step; auto.
Qed.

(** C8: in every execution of the handler, the processing interval is
    registered exactly when some session is registered (and [isProcessing]
    agrees with it); so with an empty registry the interval does not fire. *)
Theorem C8_timer_iff_registered cfg st :
  reachable cfg st ->
  (processingLoop st = true <-> activeConnections st <> []) /\
  isProcessing st = processingLoop st /\
  (activeConnections st = [] -> step cfg st ETick = (st, [])).
Proof.
  intros [es ->].
  assert (H : timer_inv (fst (run cfg initState es)))
    by (apply timer_inv_run; unfold timer_inv; simpl;
        split; [split; [discriminate|intros H; contradiction H; reflexivity]|reflexivity]).
  destruct H as [Hiff Heq]; split; [exact Hiff|]; split; [exact Heq|].
  intros Hnil; simpl.
  destruct (processingLoop (fst (run cfg initState es))) eqn:L; [|reflexivity].
  exfalso; apply Hiff; [reflexivity|exact Hnil].
Qed.

Lemma C8_timer_iff_registered_witness :
  reachable defaultConfig state_after_one_tick /\
  processingLoop state_after_one_tick = true /\
  isProcessing state_after_one_tick = true.
Proof.
  assert (Hr : reachable defaultConfig state_after_one_tick)
    by (exists (firstn 4 trace_two_ticks); reflexivity).
  destruct (C8_timer_iff_registered defaultConfig _ Hr) as [Hiff [Heq _]].
  split; [exact Hr|].
  assert (Hl : processingLoop state_after_one_tick = true)
    by (apply Hiff; vm_compute; discriminate).
  split; [exact Hl|rewrite Heq; exact Hl].
Defined.

(** * C9: subtitle events *)

Lemma truthy_text_spec t s :
  truthy_text t = Some s <-> t = Some s /\ s <> ""%string.
Proof.
  destruct t as [s'|]; simpl.
  - destruct (String.eqb_spec s' ""%string) as [E|E]; subst.
    + split; [discriminate|intros [H1 H2]; inversion H1; subst; congruence].
    + split; [intros H; inversion H; subst; auto|intros [H1 _]; inversion H1; subst; auto].
  - split; [discriminate|intros [H _]; discriminate].
Qed.

Lemma handleMessage_no_emit cfg ws m now st :
  forallb (fun o => negb (emits_event o)) (snd (handleMessage cfg ws m now st)) = true.
Proof.
  unfold handleMessage, handleAudioData, handleStartStream, handleStopStream.
  destruct (map_get ws (activeConnections st)); [|reflexivity].
  destruct m; simpl;
    repeat match goal with
    | |- context [match ?x with _ => _ end] => destruct x
    end; reflexivity.
Qed.

Lemma step_no_emit_absent cfg st e :
  only_absent e = true ->
  forall o, In o (snd (step cfg st e)) -> emits_event o = false.
Proof.
  intros Ha o Hin; destruct e; simpl in *.
  - destruct Hin as [<-|[]]; reflexivity.
  - pose proof (handleMessage_no_emit cfg ws m now st) as H.
    rewrite forallb_forall in H; apply H in Hin; apply negb_true_iff; exact Hin.
  - contradiction.
  - destruct (processingLoop st); contradiction.
  - destruct o0 as [[r|]|msg]; try discriminate.
    unfold settle in Hin; destruct (nth_error (pending st) k); contradiction.
Qed.

(** C9: when the [k]-th outstanding call resolves with [r], a subtitle
    event is emitted exactly when [r] is a result whose [text] is a
    non-empty string, with the next id of the supply (which advances), the
    current time and the connection's id; no error event is emitted.  In
    every execution in which each call that settles returns [null], no
    event at all is emitted, whatever the number of such calls. *)
Theorem C9_subtitle_iff_text k r now st p :
  nth_error (pending st) k = Some p ->
  (let '(st', out) := settle k (Resolved r) now st in
   ((exists sub, out = [Emit (EvSubtitle sub)]) <->
    exists res s, r = Some res /\ r_text res = Some s /\ s <> ""%string) /\
   (forall sub, In (Emit (EvSubtitle sub)) out ->
      s_id sub = uuidSupply st /\ s_timestamp sub = now /\
      s_connectionId sub = id (p_connection p) /\
      uuidSupply st' = S (uuidSupply st)) /\
   (forall msg, ~ In (Emit (EvError msg)) out)) /\
  (forall cfg st0 es, forallb only_absent es = true ->
     forall o, In o (snd (run cfg st0 es)) -> emits_event o = false).
Proof.
  intros Hp; split.
  - unfold settle; rewrite Hp; cbn -[truthy_text].
    destruct r as [res|].
    + destruct (truthy_text (r_text res)) as [s|] eqn:T; cbn -[truthy_text].
      * apply truthy_text_spec in T as [T1 T2].
        split; [split; [intros _; exists res, s; auto|intros _; eexists; reflexivity]|].
        split; [intros sub [Hs|[]]; inversion Hs; subst; auto|].
        intros msg [H|[]]; discriminate.
      * split; [split; [intros [sub H]; discriminate|]|split; [intros _ []|intros _ []]].
        intros [res' [s [E [Ht Hn]]]]; inversion E; subst res'.
        assert (truthy_text (r_text res) = Some s) by (apply truthy_text_spec; auto).
        congruence.
    + split; [split; [intros [sub H]; discriminate|]|split; [intros _ []|intros _ []]].
      intros [res' [s [E _]]]; discriminate.
  - intros cfg st0 es; revert st0; induction es as [|e es IH]; intros st0 Ha o Hin;
      [contradiction|].
    simpl in Ha; apply andb_true_iff in Ha as [Ha1 Ha2].
    rewrite run_snd in Hin; apply in_app_or in Hin as [Hin|Hin].
    + exact (step_no_emit_absent cfg st0 e Ha1 o Hin).
    + exact (IH _ Ha2 o Hin).
Qed.

Lemma C9_subtitle_iff_text_witness :
  let res := mkResult (Some "Zdravo"%string) None None (Some "sr"%string) in
  snd (settle 0 (Resolved (Some res)) 9 state_after_one_tick) =
    [Emit (EvSubtitle (mkSubtitle 1 "Zdravo"%string None None 9 0 (Some "sr"%string)))] /\
  snd (run defaultConfig state_after_one_tick
         [ESettle 0 (Resolved None) 3; ETick; ESettle 0 (Resolved None) 4]) = [].
Proof.
  intros res.
  assert (Hp : nth_error (pending state_after_one_tick) 0 =
                 Some (mkPending 1 (mkConnection 0 0 (audio_bytes 1000) true 2)
                         (audio_bytes 1000) (mkOptions 0 "sr"%string "en"%string false)))
    by (vm_compute; reflexivity).
  destruct (C9_subtitle_iff_text 0 (Some res) 9 state_after_one_tick _ Hp) as [H1 H2].
  split.
  - destruct (settle 0 (Resolved (Some res)) 9 state_after_one_tick) as [st' out] eqn:E.
    vm_compute in E; inversion E; reflexivity.
  - destruct (snd (run defaultConfig state_after_one_tick
                 [ESettle 0 (Resolved None) 3; ETick; ESettle 0 (Resolved None) 4]))
      as [|o os] eqn:E; [reflexivity|].
    exfalso.
    assert (Ho : emits_event o = false)
      by (apply (H2 defaultConfig state_after_one_tick
                   [ESettle 0 (Resolved None) 3; ETick; ESettle 0 (Resolved None) 4]);
          [reflexivity|rewrite E; left; reflexivity]).
    vm_compute in E; discriminate.
Defined.

(** * C10: stop_stream *)

Lemma handleMessage_get_other cfg w m now st ws :
  ws <> w ->
  map_get ws (activeConnections (fst (handleMessage cfg w m now st))) =
  map_get ws (activeConnections st).
Proof.
  intros Hne.
  unfold handleMessage, handleAudioData, handleStartStream, handleStopStream.
  destruct (map_get w (activeConnections st)); [|reflexivity].
  destruct m; simpl;
    repeat match goal with
    | |- context [match ?x with _ => _ end] => destruct x
    end; simpl; rewrite ?map_get_replace_other by exact Hne; reflexivity.
Qed.

Lemma handleMessage_keeps_stopped cfg ws m now st c :
  match m with MStartStream => False | _ => True end ->
  map_get ws (activeConnections st) = Some c -> isStreaming c = false ->
  exists c', map_get ws (activeConnections (fst (handleMessage cfg ws m now st))) = Some c' /\
             audioBuffer c' = audioBuffer c /\ isStreaming c' = false.
Proof.
  intros Hm Hg Hs; destruct m as [d| | | |t]; try contradiction.
  - rewrite (audio_not_streaming cfg ws d now st c Hg Hs); simpl.
    rewrite map_get_replace_same, Hg; eexists; split; [reflexivity|auto].
  - unfold handleMessage; rewrite Hg; simpl; unfold handleStopStream; simpl.
    rewrite map_get_replace_same, Hg; simpl.
    rewrite map_get_replace_same, map_get_replace_same, Hg.
    eexists; split; [reflexivity|auto].
  - unfold handleMessage; rewrite Hg; simpl.
    rewrite map_get_replace_same, Hg; eexists; split; [reflexivity|auto].
  - unfold handleMessage; rewrite Hg; simpl.
    rewrite map_get_replace_same, Hg; eexists; split; [reflexivity|auto].
Qed.

Lemma processAudioBuffers_keeps_stopped cfg st ws c :
  keys_unique st -> map_get ws (activeConnections st) = Some c -> isStreaming c = false ->
  map_get ws (activeConnections (processAudioBuffers cfg st)) = Some c.
Proof.
  intros Hk Hg Hs.
  destruct (selected st) as [[w c']|] eqn:Sel.
  - assert (Hw : ws <> w).
    { intros ->.
      pose proof (selected_registered st w c' Hk Sel) as Hg'.
      unfold selected in Sel.
      destruct (activeStreams (activeConnections st)) as [|q rest] eqn:E;
        simpl in Sel; inversion Sel; subst q.
      assert (Hin : In (w, c') (activeStreams (activeConnections st)))
        by (rewrite E; left; reflexivity).
      unfold activeStreams in Hin; apply filter_In in Hin as [_ Hf].
      rewrite Hg in Hg'; inversion Hg'; subst c'.
      rewrite Hs in Hf; discriminate. }
    unfold processAudioBuffers; unfold selected in Sel.
    destruct (activeStreams (activeConnections st)) as [|[w' c''] rest];
      simpl in Sel; inversion Sel; subst w' c''.
    destruct (Nat.leb _ _); simpl; [|exact Hg].
    rewrite map_get_replace_other by exact Hw; exact Hg.
  - unfold processAudioBuffers; unfold selected in Sel.
    destruct (activeStreams (activeConnections st)) as [|[w' c''] rest];
      [exact Hg|discriminate].
Qed.

Definition stopped_with (ws : nat) (b : bytes) (st : State) : Prop :=
  keys_unique st /\
  exists c, map_get ws (activeConnections st) = Some c /\
            audioBuffer c = b /\ isStreaming c = false.

Lemma stopped_with_step cfg ws b st e :
  keeps_session ws e = true -> stopped_with ws b st -> stopped_with ws b (fst (step cfg st e)).
Proof.
  intros Hks [Hk [c [Hg [Hb Hs]]]]; split; [apply keys_unique_step; exact Hk|].
  destruct e; simpl in *.
  - apply negb_true_iff, Nat.eqb_neq in Hks.
    unfold handleConnection; exists c; split; [|auto].
    destruct (isProcessing st); simpl;
      rewrite map_get_set_other by (intros E; apply Hks; symmetry; exact E); exact Hg.
  - destruct (Nat.eq_dec ws0 ws) as [->|Hne].
    + destruct (handleMessage_keeps_stopped cfg ws m now st c) as [c' [H1 [H2 H3]]];
        auto; [destruct m; auto; rewrite Nat.eqb_refl in Hks; discriminate|].
      exists c'; split; [exact H1|split; [congruence|exact H3]].
    + exists c; split; [|auto].
      rewrite handleMessage_get_other by (intros E; apply Hne; symmetry; exact E); exact Hg.
  - apply negb_true_iff, Nat.eqb_neq in Hks.
    exists c; split; [|auto].
    unfold handleDisconnection.
    assert (Hst1 : forall st1 : State,
              map_get ws (activeConnections st1) = Some c ->
              map_get ws (activeConnections
                (if Nat.eqb (List.length (activeConnections st1)) 0
                 then stopProcessing st1 else st1)) = Some c).
    { intros st1 H; destruct (Nat.eqb _ 0); [|exact H].
      unfold stopProcessing; destruct (negb (isProcessing st1)); simpl; exact H. }
    apply Hst1; destruct (map_get ws0 (activeConnections st)); simpl; [|exact Hg].
    rewrite map_get_delete_other by (intros E; apply Hks; symmetry; exact E); exact Hg.
  - exists c; split; [|auto].
    destruct (processingLoop st); simpl; [|exact Hg].
    apply processAudioBuffers_keeps_stopped; auto.
  - exists c; split; [|auto].
    destruct (settle_frame k o now st) as [-> _]; exact Hg.
Qed.

Lemma stopped_with_run cfg ws b es : forall st,
  forallb (keeps_session ws) es = true -> stopped_with ws b st ->
  stopped_with ws b (fst (run cfg st es)).
Proof.
  induction es as [|e es IH]; intros st Hes H; [exact H|].
  simpl in Hes; apply andb_true_iff in Hes as [H1 H2].
  rewrite run_fst; apply IH; [exact H2|apply stopped_with_step; auto].
Qed.

(** C10: a [stop_stream] message on a registered session changes only its
    [isStreaming] flag (now false) and its activity time; other sessions,
    the loop and the outstanding calls are untouched.  Afterwards, through
    every execution that neither closes nor reopens [ws] nor starts its
    stream again (audio, ticks, backend results, other connections), its
    buffer keeps the same bytes. *)
Theorem C10_stop_keeps_buffer cfg ws now st c :
  keys_unique st -> map_get ws (activeConnections st) = Some c ->
  let '(st1, out) := handleMessage cfg ws MStopStream now st in
  map_get ws (activeConnections st1) =
    Some (mkConnection (id c) (connectedAt c) (audioBuffer c) false now) /\
  (forall ws', ws' <> ws ->
     map_get ws' (activeConnections st1) = map_get ws' (activeConnections st)) /\
  isProcessing st1 = isProcessing st /\ processingLoop st1 = processingLoop st /\
  pending st1 = pending st /\
  out = [Send ws MsgStreamStopped] /\
  (forall es, forallb (keeps_session ws) es = true ->
     exists c', map_get ws (activeConnections (fst (run cfg st1 es))) = Some c' /\
                audioBuffer c' = audioBuffer c /\ isStreaming c' = false).
Proof.
  intros Hk Hg.
  pose proof (handleMessage_frame cfg ws MStopStream now st) as Hfr.
  assert (Hget : map_get ws (activeConnections (fst (handleMessage cfg ws MStopStream now st)))
                 = Some (mkConnection (id c) (connectedAt c) (audioBuffer c) false now)).
  { unfold handleMessage; rewrite Hg; simpl; unfold handleStopStream; simpl.
    rewrite map_get_replace_same, Hg; simpl.
    rewrite map_get_replace_same, map_get_replace_same, Hg; reflexivity. }
  assert (Hout : snd (handleMessage cfg ws MStopStream now st) = [Send ws MsgStreamStopped]).
  { unfold handleMessage; rewrite Hg; simpl; unfold handleStopStream; simpl.
    rewrite map_get_replace_same, Hg; reflexivity. }
  assert (Hoth : forall ws', ws' <> ws ->
    map_get ws' (activeConnections (fst (handleMessage cfg ws MStopStream now st))) =
    map_get ws' (activeConnections st))
    by (intros; apply handleMessage_get_other; auto).
  destruct (handleMessage cfg ws MStopStream now st) as [st1 out]; simpl in *.
  destruct Hfr as [Hkeys [Hp [Hl [Hpe _]]]].
  split; [exact Hget|]; split; [exact Hoth|].
  split; [exact Hp|]; split; [exact Hl|]; split; [exact Hpe|]; split; [exact Hout|].
  intros es Hes.
  assert (Hs1 : stopped_with ws (audioBuffer c) st1).
  { split; [unfold keys_unique; rewrite Hkeys; exact Hk|].
    eexists; split; [exact Hget|auto]. }
  destruct (stopped_with_run cfg ws (audioBuffer c) es st1 Hes Hs1) as [_ [c' H]].
  exists c'; exact H.
Qed.

Lemma C10_stop_keeps_buffer_witness :
  keys_unique state_after_one_tick /\
  map_get 1 (activeConnections state_after_one_tick) =
    Some (mkConnection 0 0 (audio_bytes 1000) true 2) /\
  exists c', map_get 1 (activeConnections
    (fst (run defaultConfig (fst (handleMessage defaultConfig 1 MStopStream 5 state_after_one_tick))
            [ETick; EMsg 1 (MAudio (Some (audio_bytes 10))) 6; EOpen 2 7; ETick]))) = Some c' /\
    audioBuffer c' = audio_bytes 1000 /\ isStreaming c' = false.
Proof.
  assert (Hk : keys_unique state_after_one_tick)
    by (unfold keys_unique; vm_compute; repeat constructor; intros []).
  assert (Hg : map_get 1 (activeConnections state_after_one_tick) =
                 Some (mkConnection 0 0 (audio_bytes 1000) true 2))
    by (vm_compute; reflexivity).
  split; [exact Hk|]; split; [exact Hg|].
  pose proof (C10_stop_keeps_buffer defaultConfig 1 5 state_after_one_tick _ Hk Hg) as H.
  destruct (handleMessage defaultConfig 1 MStopStream 5 state_after_one_tick) as [st1 out].
  destruct H as [_ [_ [_ [_ [_ [_ H]]]]]].
  apply H; reflexivity.
Defined.

(** * Further properties of the handler *)

Lemma map_get_In {A} (k : nat) (v : A) m : map_get k m = Some v -> In (k, v) m.
Proof.
  induction m as [|[k2 v2] m IH]; simpl; [discriminate|].
  destruct (Nat.eqb_spec k k2); [intros H; inversion H; subst; left; reflexivity|].
  intros H; right; auto.
Qed.

Lemma In_map_replace {A} (k : nat) (v : A) m x :
  In x (map_replace k v m) -> In x m \/ x = (k, v).
Proof.
  induction m as [|[k2 v2] m IH]; simpl; [tauto|].
  destruct (Nat.eqb_spec k k2); simpl.
  - subst k2; intros [H|H]; [right; symmetry; exact H|left; right; exact H].
  - intros [H|H]; [left; left; exact H|destruct (IH H); tauto].
Qed.

Lemma In_map_set {A} (k : nat) (v : A) m x :
  In x (map_set k v m) -> In x m \/ x = (k, v).
Proof.
  unfold map_set; destruct (map_has k m); [apply In_map_replace|].
  intros H; apply in_app_or in H as [H|[H|[]]]; [left; exact H|right; symmetry; exact H].
Qed.

Lemma In_map_delete {A} (k : nat) (m : list (nat * A)) x : In x (map_delete k m) -> In x m.
Proof.
  induction m as [|[k2 v2] m IH]; simpl; [tauto|].
  destruct (Nat.eqb k k2); simpl; tauto.
Qed.

Section MapValueLemmas.
Context {A B : Type} (f : A -> B).

Lemma values_delete_unique (k : nat) (m : list (nat * A)) :
  NoDup (List.map (fun e => f (snd e)) m) ->
  NoDup (List.map (fun e => f (snd e)) (map_delete k m)).
Proof.
  induction m as [|[k2 v2] m IH]; simpl; intros H; [constructor|].
  inversion H as [|? ? Hn Hd]; subst.
  destruct (Nat.eqb k k2); simpl; auto.
  constructor; auto.
  intros Hin; apply Hn; apply in_map_iff in Hin as [x [Hx Hin]].
  apply in_map_iff; exists x; split; [exact Hx|apply (In_map_delete k); exact Hin].
Qed.

Lemma values_replace_same (k : nat) (v v0 : A) m :
  map_get k m = Some v0 -> f v = f v0 ->
  List.map (fun e => f (snd e)) (map_replace k v m) = List.map (fun e => f (snd e)) m.
Proof.
  induction m as [|[k2 v2] m IH]; simpl; [discriminate|].
  destruct (Nat.eqb k k2); simpl.
  - intros H; inversion H; subst; intros ->; reflexivity.
  - intros H E; rewrite IH; auto.
Qed.

Lemma values_replace_fresh (k : nat) (v : A) m :
  NoDup (List.map (fun e => f (snd e)) m) ->
  ~ In (f v) (List.map (fun e => f (snd e)) m) ->
  NoDup (List.map (fun e => f (snd e)) (map_replace k v m)).
Proof.
  induction m as [|[k2 v2] m IH]; simpl; intros Hd Hn; [constructor|].
  inversion Hd as [|? ? Hn2 Hd2]; subst.
  destruct (Nat.eqb k k2); simpl; constructor; auto.
  intros Hin; apply in_map_iff in Hin as [[k3 v3] [Hx Hin]]; simpl in Hx.
  apply In_map_replace in Hin as [Hin|Hin].
  - apply Hn2, in_map_iff; exists (k3, v3); auto.
  - inversion Hin; subst; apply Hn; left; symmetry; exact Hx.
Qed.

Lemma values_set_fresh (k : nat) (v : A) m :
  NoDup (List.map (fun e => f (snd e)) m) ->
  ~ In (f v) (List.map (fun e => f (snd e)) m) ->
  NoDup (List.map (fun e => f (snd e)) (map_set k v m)).
Proof.
  intros Hd Hn; unfold map_set; destruct (map_has k m).
  - apply values_replace_fresh; auto.
  - rewrite map_app; simpl; apply NoDup_app; auto.
    + repeat constructor; simpl; tauto.
    + intros x Hx [Hy|[]]; subst x; contradiction.
Qed.

End MapValueLemmas.

Lemma values_replace_keep {A B} (f : A -> B) (k : nat) (v : A) m :
  (forall v0, map_get k m = Some v0 -> f v = f v0) ->
  List.map (fun e => f (snd e)) (map_replace k v m) = List.map (fun e => f (snd e)) m.
Proof.
  induction m as [|[k2 v2] m IH]; simpl; [reflexivity|].
  destruct (Nat.eqb k k2); simpl.
  - intros H; rewrite (H v2 eq_refl); reflexivity.
  - intros H; rewrite IH; auto.
Qed.

Lemma conns_handleConnection ws now st :
  activeConnections (fst (handleConnection ws now st)) =
  map_set ws (mkConnection (uuidSupply st) now [] false now) (activeConnections st).
Proof. unfold handleConnection; destruct (isProcessing st); reflexivity. Qed.

Lemma conns_handleDisconnection ws st :
  activeConnections (handleDisconnection ws st) =
  match map_get ws (activeConnections st) with
  | Some _ => map_delete ws (activeConnections st)
  | None => activeConnections st
  end.
Proof.
  unfold handleDisconnection, stopProcessing.
  destruct (map_get ws (activeConnections st)); simpl;
    repeat match goal with |- context [if ?b then _ else _] => destruct b end;
    reflexivity.
Qed.

Lemma pending_handleDisconnection ws st :
  pending (handleDisconnection ws st) = pending st.
Proof.
  unfold handleDisconnection, stopProcessing.
  destruct (map_get ws (activeConnections st)); simpl;
    repeat match goal with |- context [if ?b then _ else _] => destruct b end;
    reflexivity.
Qed.

(** ** The buffer bound *)

Lemma bounded_update cfg st ws c :
  buffers_bounded cfg st -> List.length (audioBuffer c) <= maxBufferSize cfg ->
  buffers_bounded cfg (update_connection st ws c).
Proof.
  intros H Hc w c' Hin; simpl in Hin.
  apply In_map_replace in Hin as [Hin|Hin]; [eapply H; eauto|].
  inversion Hin; subst; exact Hc.
Qed.

Lemma capped_length cfg b :
  0 < maxBufferSize cfg ->
  List.length (if Nat.ltb (maxBufferSize cfg) (List.length b)
               then slice_neg b (maxBufferSize cfg) else b) <= maxBufferSize cfg.
Proof.
  intros Hm; destruct (Nat.ltb_spec (maxBufferSize cfg) (List.length b)); [|lia].
  unfold slice_neg; destruct (Nat.eqb_spec (maxBufferSize cfg) 0); [lia|].
  rewrite length_skipn; lia.
Qed.

Lemma bounded_handleMessage cfg ws m now st :
  0 < maxBufferSize cfg -> buffers_bounded cfg st ->
  buffers_bounded cfg (fst (handleMessage cfg ws m now st)).
Proof.
  intros Hm H; unfold handleMessage.
  destruct (map_get ws (activeConnections st)) as [c|] eqn:G; [|exact H].
  assert (H1 : buffers_bounded cfg (update_connection st ws (with_activity c now)))
    by (apply bounded_update; [exact H|apply (H ws c), map_get_In; exact G]).
  assert (G1 : map_get ws (activeConnections (update_connection st ws (with_activity c now)))
               = Some (with_activity c now))
    by (simpl; rewrite map_get_replace_same, G; reflexivity).
  destruct m as [d| | | |t]; simpl fst; auto.
  - unfold handleAudioData; rewrite G1; simpl.
    destruct (isStreaming c); simpl; [|exact H1].
    destruct d; simpl; [|exact H1].
    apply bounded_update; [exact H1|apply capped_length; exact Hm].
  - unfold handleStartStream; rewrite G1; simpl.
    apply bounded_update; [exact H1|simpl; lia].
  - unfold handleStopStream; rewrite G1; simpl.
    apply bounded_update; [exact H1|apply (H1 ws (with_activity c now)), map_get_In; exact G1].
Qed.

Lemma bounded_step cfg st e :
  0 < maxBufferSize cfg -> buffers_bounded cfg st ->
  buffers_bounded cfg (fst (step cfg st e)).
Proof.
  intros Hm H; destruct e; unfold step; cbn [fst].
  - intros w c Hin; rewrite conns_handleConnection in Hin.
    apply In_map_set in Hin as [Hin|Hin]; [eapply H; eauto|].
    inversion Hin; subst; simpl; lia.
  - apply bounded_handleMessage; auto.
  - intros w c Hin; rewrite conns_handleDisconnection in Hin.
    destruct (map_get ws (activeConnections st)); [apply In_map_delete in Hin|];
      eapply H; eauto.
  - destruct (processingLoop st); cbn [fst]; [|exact H].
    unfold processAudioBuffers.
    destruct (activeStreams (activeConnections st)) as [|[w c] rest] eqn:E; [exact H|].
    destruct (Nat.leb _ _); [|exact H].
    intros w' c' Hin; simpl in Hin.
    apply In_map_replace in Hin as [Hin|Hin]; [eapply H; eauto|].
    inversion Hin; subst; simpl; unfold slice_from; rewrite length_skipn.
    assert (Hc : In (w, c) (activeStreams (activeConnections st)))
      by (rewrite E; left; reflexivity).
    unfold activeStreams in Hc; apply filter_In in Hc as [Hc _].
    specialize (H _ _ Hc); lia.
  - intros w c Hin; destruct (settle_frame k o now st) as [E _].
    rewrite E in Hin; eapply H; eauto.
Qed.

Lemma bounded_run cfg es : forall st,
  0 < maxBufferSize cfg -> buffers_bounded cfg st ->
  buffers_bounded cfg (fst (run cfg st es)).
Proof.
  induction es as [|e es IH]; intros st Hm H; [exact H|].
  rewrite run_fst; apply IH; [exact Hm|apply bounded_step; auto].
Qed.

(** X: in every execution of the handler (with a positive
    [maxBufferSize]), every buffer size reported by [getStats] is at most
    [maxBufferSize], and the reported connection count is the number of
    reported connections. *)
Theorem getStats_buffers_bounded cfg st :
  reachable cfg st -> 0 < maxBufferSize cfg ->
  (forall cs, In cs (stats_connections (getStats st)) -> cs_bufferSize cs <= maxBufferSize cfg) /\
  stats_activeConnections (getStats st) = List.length (stats_connections (getStats st)).
Proof.
  intros [es ->] Hm.
  pose proof (bounded_run cfg es initState Hm (fun w c H => match H with end)) as H.
  split.
  - intros cs Hin; unfold getStats in Hin; simpl in Hin.
    apply in_map_iff in Hin as [[w c] [<- Hin]]; simpl; eapply H; eauto.
  - unfold getStats; simpl; rewrite length_map; reflexivity.
Qed.

Lemma getStats_buffers_bounded_witness :
  reachable defaultConfig state_after_one_tick /\
  0 < maxBufferSize defaultConfig /\
  List.map cs_bufferSize (stats_connections (getStats state_after_one_tick)) = [1000] /\
  (forall cs, In cs (stats_connections (getStats state_after_one_tick)) ->
     cs_bufferSize cs <= maxBufferSize defaultConfig).
Proof.
  assert (Hr : reachable defaultConfig state_after_one_tick)
    by (exists (firstn 4 trace_two_ticks); reflexivity).
  assert (Hm : 0 < maxBufferSize defaultConfig)
    by (unfold defaultConfig; cbn [maxBufferSize]; apply Nat.mul_pos_pos; apply Nat.lt_0_succ).
  split; [exact Hr|]; split; [exact Hm|]; split; [vm_compute; reflexivity|].
  apply (proj1 (getStats_buffers_bounded defaultConfig _ Hr Hm)).
Defined.

(** ** Connection ids *)

Lemma ids_update st ws c c0 :
  map_get ws (activeConnections st) = Some c0 -> id c = id c0 ->
  conn_ids (update_connection st ws c) = conn_ids st.
Proof.
  intros G Hid; unfold conn_ids; simpl; apply values_replace_keep.
  intros v0 H; rewrite G in H; inversion H; subst; exact Hid.
Qed.

Lemma ids_handleMessage cfg ws m now st :
  conn_ids (fst (handleMessage cfg ws m now st)) = conn_ids st.
Proof.
  unfold handleMessage.
  destruct (map_get ws (activeConnections st)) as [c|] eqn:G; [|reflexivity].
  assert (E1 : conn_ids (update_connection st ws (with_activity c now)) = conn_ids st)
    by (apply (ids_update _ _ _ c G); reflexivity).
  assert (G1 : map_get ws (activeConnections (update_connection st ws (with_activity c now)))
               = Some (with_activity c now))
    by (simpl; rewrite map_get_replace_same, G; reflexivity).
  destruct m as [d| | | |t]; cbn [fst]; try exact E1.
  - unfold handleAudioData; rewrite G1; cbn [negb isStreaming with_activity].
    destruct (isStreaming c); cbn [negb fst]; [|exact E1].
    destruct d; cbn [fst]; [|exact E1].
    erewrite ids_update; [exact E1|exact G1|reflexivity].
  - unfold handleStartStream; rewrite G1; cbn [fst].
    erewrite ids_update; [exact E1|exact G1|reflexivity].
  - unfold handleStopStream; rewrite G1; cbn [fst].
    erewrite ids_update; [exact E1|exact G1|reflexivity].
Qed.

Lemma ids_processAudioBuffers cfg st :
  keys_unique st -> conn_ids (processAudioBuffers cfg st) = conn_ids st.
Proof.
  intros Hk; unfold processAudioBuffers.
  destruct (activeStreams (activeConnections st)) as [|[w c] rest] eqn:E; [reflexivity|].
  destruct (Nat.leb _ _); [|reflexivity].
  assert (G : map_get w (activeConnections st) = Some c)
    by (apply selected_registered; [exact Hk|unfold selected; rewrite E; reflexivity]).
  change (conn_ids (update_connection st w
            (with_buffer c (slice_from (audioBuffer c) (chunkSize cfg)))) = conn_ids st).
  apply (ids_update _ _ _ _ G); reflexivity.
Qed.

Lemma supply_handleConnection ws now st :
  uuidSupply (fst (handleConnection ws now st)) = S (uuidSupply st).
Proof. unfold handleConnection; destruct (isProcessing st); reflexivity. Qed.

Lemma supply_handleDisconnection ws st :
  uuidSupply (handleDisconnection ws st) = uuidSupply st.
Proof.
  unfold handleDisconnection, stopProcessing.
  destruct (map_get ws (activeConnections st)); simpl;
    repeat match goal with |- context [if ?b then _ else _] => destruct b end;
    reflexivity.
Qed.

Lemma supply_settle k o now st : uuidSupply st <= uuidSupply (fst (settle k o now st)).
Proof.
  unfold settle; destruct (nth_error (pending st) k); simpl; [|lia].
  destruct o as [[r|]|msg]; simpl; try lia.
  destruct (truthy_text (r_text r)); simpl; lia.
Qed.

Lemma ids_fresh_step cfg st e :
  keys_unique st -> ids_fresh st -> ids_fresh (fst (step cfg st e)).
Proof.
  intros Hk [Hd Hb]; destruct e; unfold step; cbn [fst].
  - unfold ids_fresh, conn_ids; rewrite conns_handleConnection, supply_handleConnection.
    split.
    + apply values_set_fresh; [exact Hd|].
      intros Hin; specialize (Hb _ Hin); simpl in Hb; lia.
    + intros i Hin; apply in_map_iff in Hin as [[w c] [<- Hin]].
      apply In_map_set in Hin as [Hin|Hin].
      * assert (Hi : In (id c) (conn_ids st))
          by (apply in_map_iff; exists (w, c); auto).
        specialize (Hb _ Hi); simpl; lia.
      * inversion Hin; subst; simpl; lia.
  - unfold ids_fresh; rewrite ids_handleMessage.
    destruct (handleMessage_frame cfg ws m now st) as [_ [_ [_ [_ ->]]]]; split; auto.
  - unfold ids_fresh, conn_ids; rewrite conns_handleDisconnection, supply_handleDisconnection.
    destruct (map_get ws (activeConnections st)) as [c0|]; [|split; auto].
    split; [apply values_delete_unique; exact Hd|].
    intros i Hin; apply Hb; apply in_map_iff in Hin as [[w c] [<- Hin]].
    apply in_map_iff; exists (w, c); split; [reflexivity|eapply In_map_delete; eauto].
  - destruct (processingLoop st); cbn [fst]; [|split; auto].
    unfold ids_fresh; rewrite ids_processAudioBuffers by exact Hk.
    destruct (processAudioBuffers_frame cfg st) as [_ [_ [_ ->]]]; split; auto.
  - pose proof (supply_settle k o now st) as Hs.
    destruct (settle_frame k o now st) as [E _].
    unfold ids_fresh, conn_ids; rewrite E; split; [exact Hd|].
    intros i Hin; specialize (Hb _ Hin); lia.
Qed.

Lemma ids_fresh_run cfg es : forall st,
  keys_unique st -> ids_fresh st -> ids_fresh (fst (run cfg st es)).
Proof.
  induction es as [|e es IH]; intros st Hk H; [exact H|].
  rewrite run_fst; apply IH; [apply keys_unique_step; exact Hk|apply ids_fresh_step; auto].
Qed.

Lemma reachable_ids_fresh cfg st : reachable cfg st -> ids_fresh st.
Proof.
  intros [es ->]; apply ids_fresh_run; [constructor|split; [constructor|intros i []]].
Qed.

(** X: in every execution of the handler, no two connections reported by
    [getStats] carry the same connection id. *)
Theorem getStats_ids_distinct cfg st :
  reachable cfg st -> NoDup (List.map cs_id (stats_connections (getStats st))).
Proof.
  intros Hr; destruct (reachable_ids_fresh cfg st Hr) as [Hd _].
  unfold getStats; simpl; rewrite map_map.
  replace (List.map _ (activeConnections st)) with (conn_ids st); [exact Hd|].
  unfold conn_ids; apply map_ext; intros [w c]; reflexivity.
Qed.

Lemma getStats_ids_distinct_witness :
  let st := fst (run defaultConfig initState [EOpen 1 0; EOpen 2 0; EOpen 1 5]) in
  reachable defaultConfig st /\
  List.map cs_id (stats_connections (getStats st)) = [2; 1] /\
  NoDup (List.map cs_id (stats_connections (getStats st))).
Proof.
  intros st.
  assert (Hr : reachable defaultConfig st) by (exists [EOpen 1 0; EOpen 2 0; EOpen 1 5]; reflexivity).
  split; [exact Hr|]; split; [vm_compute; reflexivity|].
  exact (getStats_ids_distinct defaultConfig st Hr).
Defined.

(** ** Closing a connection *)

Lemma map_get_notin {A} (k : nat) (m : list (nat * A)) :
  ~ In k (map fst m) -> map_get k m = None.
Proof.
  induction m as [|[k2 v2] m IH]; simpl; intros Hn; [reflexivity|].
  destruct (Nat.eqb_spec k k2); [subst; tauto|apply IH; tauto].
Qed.

Lemma map_get_delete_same {A} (k : nat) (m : list (nat * A)) :
  NoDup (map fst m) -> map_get k (map_delete k m) = None.
Proof.
  induction m as [|[k2 v2] m IH]; simpl; intros Hd; [reflexivity|].
  inversion Hd as [|? ? Hn Hd']; subst.
  destruct (Nat.eqb_spec k k2); simpl.
  - subst; apply map_get_notin; exact Hn.
  - destruct (Nat.eqb_spec k k2); [contradiction|auto].
Qed.

Lemma reachable_timer_inv cfg st : reachable cfg st -> timer_inv st.
Proof.
  intros [es ->]; apply timer_inv_run; unfold timer_inv; simpl.
  split; [split; [discriminate|intros H; contradiction H; reflexivity]|reflexivity].
Qed.

Lemma disconnect_unknown ws st :
  timer_inv st -> map_get ws (activeConnections st) = None ->
  handleDisconnection ws st = st.
Proof.
  intros [Hiff Heq] G; unfold handleDisconnection; rewrite G.
  destruct (Nat.eqb_spec (List.length (activeConnections st)) 0) as [E|]; [|reflexivity].
  apply length_zero_iff_nil in E.
  destruct (processingLoop st) eqn:L.
  - exfalso; apply (proj1 Hiff eq_refl); exact E.
  - unfold stopProcessing; rewrite Heq; reflexivity.
Qed.

(** X: in every execution, a message from or the close of a handle that is
    not registered changes nothing and sends nothing (in particular it
    never stops the processing timer). *)
Theorem unknown_handle_noop cfg st ws :
  reachable cfg st -> map_get ws (activeConnections st) = None ->
  step cfg st (EClose ws) = (st, []) /\
  (forall m now, step cfg st (EMsg ws m now) = (st, [])).
Proof.
  intros Hr G; split.
  - unfold step; rewrite disconnect_unknown; [reflexivity|apply (reachable_timer_inv cfg); exact Hr|exact G].
  - intros m now; unfold step, handleMessage; rewrite G; reflexivity.
Qed.

Lemma unknown_handle_noop_witness :
  reachable defaultConfig state_after_one_tick /\
  map_get 7 (activeConnections state_after_one_tick) = None /\
  step defaultConfig state_after_one_tick (EClose 7) = (state_after_one_tick, []).
Proof.
  assert (Hr : reachable defaultConfig state_after_one_tick)
    by (exists (firstn 4 trace_two_ticks); reflexivity).
  assert (G : map_get 7 (activeConnections state_after_one_tick) = None)
    by (vm_compute; reflexivity).
  split; [exact Hr|]; split; [exact G|].
  exact (proj1 (unknown_handle_noop defaultConfig state_after_one_tick 7 Hr G)).
Defined.

(** X: in every execution, closing a registered handle removes its session
    so that it can no longer be looked up, leaves every other handle's
    session as it was, keeps the backend calls in flight (nothing is
    cancelled), and a second close of the same handle changes nothing. *)
Theorem close_registered cfg st ws c :
  reachable cfg st -> map_get ws (activeConnections st) = Some c ->
  let st' := handleDisconnection ws st in
  map_get ws (activeConnections st') = None /\
  (forall w, w <> ws -> map_get w (activeConnections st') = map_get w (activeConnections st)) /\
  pending st' = pending st /\
  handleDisconnection ws st' = st'.
Proof.
  intros Hr G st'.
  pose proof (reachable_keys_unique cfg st Hr) as Hk.
  assert (Ht : timer_inv st')
    by (apply (timer_inv_step cfg st (EClose ws)), (reachable_timer_inv cfg), Hr).
  assert (Hg : map_get ws (activeConnections st') = None)
    by (unfold st'; rewrite conns_handleDisconnection, G; apply map_get_delete_same; exact Hk).
  split; [exact Hg|]; split; [|split; [apply pending_handleDisconnection|]].
  - intros w Hw; unfold st'; rewrite conns_handleDisconnection, G.
    apply map_get_delete_other; exact Hw.
  - apply disconnect_unknown; [exact Ht|exact Hg].
Qed.

Lemma close_registered_witness :
  reachable defaultConfig state_after_one_tick /\
  map_get 1 (activeConnections state_after_one_tick) =
    Some (mkConnection 0 0 (audio_bytes 1000) true 2) /\
  List.length (pending (handleDisconnection 1 state_after_one_tick)) = 1 /\
  map_get 1 (activeConnections (handleDisconnection 1 state_after_one_tick)) = None.
Proof.
  assert (Hr : reachable defaultConfig state_after_one_tick)
    by (exists (firstn 4 trace_two_ticks); reflexivity).
  assert (G : map_get 1 (activeConnections state_after_one_tick) =
                Some (mkConnection 0 0 (audio_bytes 1000) true 2))
    by (vm_compute; reflexivity).
  destruct (close_registered defaultConfig state_after_one_tick 1 _ Hr G) as [Hg [_ [Hp _]]].
  split; [exact Hr|]; split; [exact G|]; split; [|exact Hg].
  rewrite Hp; vm_compute; reflexivity.
Defined.

(** X: closing a connection does not affect how a backend call already in
    flight settles: the subtitle or error it emits is the same as if the
    connection were still open. *)
Theorem settle_after_close k o now ws st :
  snd (settle k o now (handleDisconnection ws st)) = snd (settle k o now st).
Proof.
  unfold settle; rewrite pending_handleDisconnection.
  destruct (nth_error (pending st) k); [|reflexivity].
  destruct o as [[r|]|msg]; cbn [snd]; try reflexivity.
  destruct (truthy_text (r_text r)); cbn [snd uuidSupply]; [|reflexivity].
  rewrite supply_handleDisconnection; reflexivity.
Qed.

(** ** One tick *)

(** X: a tick either changes nothing, or starts exactly one backend call,
    for the first streaming session with buffered audio, and leaves the
    session of every other handle as it was. *)
Theorem tick_one_session cfg st :
  processAudioBuffers cfg st = st \/
  exists ws c p,
    selected st = Some (ws, c) /\ p_ws p = ws /\
    pending (processAudioBuffers cfg st) = pending st ++ [p] /\
    (forall w, w <> ws ->
       map_get w (activeConnections (processAudioBuffers cfg st)) =
       map_get w (activeConnections st)).
Proof.
  unfold processAudioBuffers, selected.
  destruct (activeStreams (activeConnections st)) as [|[w c] rest]; [left; reflexivity|].
  destruct (Nat.leb _ _); [right|left; reflexivity].
  exists w, c, (mkPending w (with_buffer c (slice_from (audioBuffer c) (chunkSize cfg)))
                  (slice_to (audioBuffer c) (chunkSize cfg)) (options_for cfg c)).
  split; [reflexivity|]; split; [reflexivity|]; split; [reflexivity|].
  intros w' Hw; simpl; apply map_get_replace_other; exact Hw.
Qed.

(** X: while the first streaming session with buffered audio holds fewer
    than [chunkSize] bytes, any number of ticks changes nothing and sends
    nothing, even when later sessions hold full chunks. *)
Theorem partial_chunk_blocks_ticks cfg st ws c n :
  selected st = Some (ws, c) -> List.length (audioBuffer c) < chunkSize cfg ->
  run cfg st (repeat ETick n) = (st, []).
Proof.
  intros Hs Hl.
  assert (Hp : processAudioBuffers cfg st = st).
  { unfold selected in Hs; unfold processAudioBuffers.
    destruct (activeStreams (activeConnections st)) as [|[w c'] rest]; [reflexivity|].
    simpl in Hs; inversion Hs; subst.
    destruct (Nat.leb_spec (chunkSize cfg) (List.length (audioBuffer c))); [lia|reflexivity]. }
  induction n as [|n IH]; [reflexivity|].
  simpl repeat; unfold run; fold run.
  assert (E : step cfg st ETick = (st, []))
    by (unfold step; rewrite Hp; destruct (processingLoop st); reflexivity).
  rewrite E, IH; reflexivity.
Qed.

Lemma partial_chunk_blocks_ticks_witness :
  let st := mkState [(1, mkConnection 0 0 [Byte.x00] true 0);
                     (2, mkConnection 1 0 (audio_bytes 1500) true 0)] true true [] 2 in
  selected st = Some (1, mkConnection 0 0 [Byte.x00] true 0) /\
  run defaultConfig st (repeat ETick 3) = (st, []).
Proof.
  intros st.
  assert (Hs : selected st = Some (1, mkConnection 0 0 [Byte.x00] true 0))
    by (vm_compute; reflexivity).
  split; [exact Hs|].
  apply (partial_chunk_blocks_ticks defaultConfig st 1 _ 3 Hs).
  apply Nat.ltb_lt; vm_compute; reflexivity.
Defined.

(** ** Replies to client messages *)

(** X: a client message produces at most one output, and it is a message
    sent back to that same client: the handler never broadcasts in reply to
    a message. *)
Theorem handleMessage_replies_to_sender cfg ws m now st :
  List.length (snd (handleMessage cfg ws m now st)) <= 1 /\
  (forall o, In o (snd (handleMessage cfg ws m now st)) -> exists msg, o = Send ws msg).
Proof.
  unfold handleMessage, handleAudioData, handleStartStream, handleStopStream.
  destruct (map_get ws (activeConnections st)); [|simpl; split; [lia|intros o []]].
  destruct m; simpl;
    repeat match goal with
    | |- context [match ?x with _ => _ end] => destruct x
    end; simpl; (split; [lia|intros o Ho]);
    repeat (destruct Ho as [<-|Ho]; [eexists; reflexivity|]); contradiction.
Qed.

(** X: audio data that cannot be decoded, sent by a streaming client, is
    answered with the error message [Failed to process audio data]; the
    session keeps its buffer and its streaming flag, only its activity time
    is updated. *)
Theorem audio_decode_failure cfg ws now st c :
  map_get ws (activeConnections st) = Some c -> isStreaming c = true ->
  snd (handleMessage cfg ws (MAudio None) now st) =
    [Send ws (MsgError "Failed to process audio data"%string)] /\
  map_get ws (activeConnections (fst (handleMessage cfg ws (MAudio None) now st))) =
    Some (mkConnection (id c) (connectedAt c) (audioBuffer c) true now).
Proof.
  intros G Hs; unfold handleMessage; rewrite G.
  unfold handleAudioData; simpl; rewrite map_get_replace_same, G; simpl; rewrite Hs.
  split; [reflexivity|].
  simpl; rewrite map_get_replace_same, G; unfold with_activity; rewrite Hs; reflexivity.
Qed.

Lemma audio_decode_failure_witness :
  map_get 1 (activeConnections state_after_one_tick) =
    Some (mkConnection 0 0 (audio_bytes 1000) true 2) /\
  snd (handleMessage defaultConfig 1 (MAudio None) 9 state_after_one_tick) =
    [Send 1 (MsgError "Failed to process audio data"%string)].
Proof.
  assert (G : map_get 1 (activeConnections state_after_one_tick) =
                Some (mkConnection 0 0 (audio_bytes 1000) true 2))
    by (vm_compute; reflexivity).
  split; [exact G|].
  exact (proj1 (audio_decode_failure defaultConfig 1 9 state_after_one_tick _ G eq_refl)).
Defined.

(** X: a [ping], or a message of an unrecognised type [t], from a
    registered client is answered with [pong], respectively with the error
    [Unknown message type: t]; its session keeps its buffer and streaming
    flag, only its activity time is updated. *)
Theorem ping_and_unknown_type cfg ws now st c t :
  map_get ws (activeConnections st) = Some c ->
  snd (handleMessage cfg ws MPing now st) = [Send ws MsgPong] /\
  snd (handleMessage cfg ws (MOther t) now st) =
    [Send ws (MsgError ("Unknown message type: " ++ t)%string)] /\
  (forall m, m = MPing \/ m = MOther t ->
     map_get ws (activeConnections (fst (handleMessage cfg ws m now st))) =
     Some (mkConnection (id c) (connectedAt c) (audioBuffer c) (isStreaming c) now)).
Proof.
  intros G; unfold handleMessage; rewrite G.
  split; [reflexivity|]; split; [reflexivity|].
  intros m [->| ->]; simpl; rewrite map_get_replace_same, G; reflexivity.
Qed.

Lemma ping_and_unknown_type_witness :
  map_get 1 (activeConnections state_after_one_tick) =
    Some (mkConnection 0 0 (audio_bytes 1000) true 2) /\
  snd (handleMessage defaultConfig 1 (MOther "subscribe"%string) 9 state_after_one_tick) =
    [Send 1 (MsgError "Unknown message type: subscribe"%string)].
Proof.
  assert (G : map_get 1 (activeConnections state_after_one_tick) =
                Some (mkConnection 0 0 (audio_bytes 1000) true 2))
    by (vm_compute; reflexivity).
  split; [exact G|].
  exact (proj1 (proj2 (ping_and_unknown_type defaultConfig 1 9 state_after_one_tick _
                         "subscribe"%string G))).
Defined.

(** ** The service factory *)

Lemma lower_char_idem c : lower_char (lower_char c) = lower_char c.
Proof. destruct c as [[] [] [] [] [] [] [] []]; reflexivity. Qed.

Lemma toLowerCase_idem s : toLowerCase (toLowerCase s) = toLowerCase s.
Proof. induction s as [|c s IH]; simpl; [reflexivity|rewrite lower_char_idem, IH; reflexivity]. Qed.

(** X: for an ASCII name, [createSTTService] ignores the case of its
    argument (a name and its lower-case form give the same service), and
    it falls back to the mock service exactly when the lower-cased name is
    none of [google], [openai] and [local]. *)
Theorem createSTTService_case_insensitive s :
  is_ascii s = true ->
  createSTTService (toLowerCase s) = createSTTService s /\
  (createSTTService s = MockSTTService <->
   ~ In (toLowerCase s) ["google"; "openai"; "local"]%string).
Proof.
  intros _; split; [unfold createSTTService; rewrite toLowerCase_idem; reflexivity|].
  unfold createSTTService; generalize (toLowerCase s) as t; intros t.
  destruct (String.eqb_spec t "mock") as [->|H1].
  { split; [intros _ [H|[H|[H|[]]]]; discriminate H|reflexivity]. }
  destruct (String.eqb_spec t "google") as [->|H2].
  { split; [discriminate|intros H; exfalso; apply H; left; reflexivity]. }
  destruct (String.eqb_spec t "openai") as [->|H3].
  { split; [discriminate|intros H; exfalso; apply H; right; left; reflexivity]. }
  destruct (String.eqb_spec t "local") as [->|H4].
  { split; [discriminate|intros H; exfalso; apply H; right; right; left; reflexivity]. }
  split; [intros _ [H|[H|[H|[]]]]; congruence|reflexivity].
Qed.

Lemma createSTTService_case_insensitive_witness :
  is_ascii "OpenAI"%string = true /\
  createSTTService (toLowerCase "OpenAI"%string) = createSTTService "OpenAI"%string /\
  createSTTService "OpenAI"%string = OpenAISTTService.
Proof.
  split; [reflexivity|]; split; [|reflexivity].
  exact (proj1 (createSTTService_case_insensitive "OpenAI"%string eq_refl)).
Defined.

(** ** The mock service *)

Lemma mock_processAudio_cases st chunk o now conf :
  let p := MockSTT.processAudio st chunk o now conf in
  (snd p = None /\
   MockSTT.currentIndex (fst p) = MockSTT.currentIndex st /\
   MockSTT.lastProcessTime (fst p) = MockSTT.lastProcessTime st) \/
  (exists x, snd p = Some x /\
   MockSTT.currentIndex (fst p) = Nat.modulo (S (MockSTT.currentIndex st)) 10 /\
   MockSTT.lastProcessTime (fst p) = now /\
   MockSTT.lastProcessTime st + MockSTT.minInterval <= now /\
   r_text x = Some (nth (MockSTT.currentIndex st) MockSTT.mockResponses ""%string)).
Proof.
  intros p; subst p; unfold MockSTT.processAudio.
  destruct (_ || _)%bool eqn:E; [left; auto|right].
  apply orb_false_iff in E as [_ E]; apply Nat.ltb_ge in E.
  eexists; split; [reflexivity|]; split; [reflexivity|]; split; [reflexivity|].
  split; [unfold MockSTT.minInterval in *; lia|reflexivity].
Qed.

Lemma mock_processAll_cons st c calls :
  MockSTT.processAll st (c :: calls) =
  let '(chunk, o, now, conf) := c in
  let p := MockSTT.processAudio st chunk o now conf in
  (fst (MockSTT.processAll (fst p) calls), (now, snd p) :: snd (MockSTT.processAll (fst p) calls)).
Proof.
  destruct c as [[[chunk o] now] conf]; simpl.
  destruct (MockSTT.processAudio st chunk o now conf) as [st1 r]; simpl.
  destruct (MockSTT.processAll st1 calls); reflexivity.
Qed.

Lemma mock_cycle_from calls : forall st,
  MockSTT.currentIndex st < 10 ->
  let ts := MockSTT.result_texts (snd (MockSTT.processAll st calls)) in
  ts = List.map (fun j => Some (nth (Nat.modulo (MockSTT.currentIndex st + j) 10)
                                  MockSTT.mockResponses ""%string))
         (seq 0 (List.length ts)).
Proof.
  induction calls as [|c calls IH]; intros st Hi ts; subst ts; [reflexivity|].
  rewrite mock_processAll_cons; destruct c as [[[chunk o] now] conf]; cbn [snd].
  unfold MockSTT.result_texts; cbn [flat_map]; fold MockSTT.result_texts.
  destruct (mock_processAudio_cases st chunk o now conf) as [[Hn [Hidx _]]|[x [Hs [Hidx [_ [_ Ht]]]]]].
  - rewrite Hn; cbn [app]; rewrite <- Hidx; apply IH; rewrite Hidx; exact Hi.
  - rewrite Hs; cbn [app List.length seq List.map].
    rewrite (IH _ (ltac:(rewrite Hidx; apply Nat.mod_upper_bound; discriminate))) at 1.
    rewrite Nat.add_0_r, Nat.mod_small by exact Hi; rewrite Ht; f_equal.
    rewrite <- seq_shift, map_map; apply map_ext; intros j.
    rewrite Hidx, Nat.Div0.add_mod_idemp_l, Nat.add_succ_comm; reflexivity.
Qed.

(** X: over any sequence of calls to the mock service from its initial
    state, the results it returns carry the sentences of [mockResponses] in
    order, starting with the first and cycling after the tenth. *)
Theorem mock_responses_cycle calls :
  let ts := MockSTT.result_texts (snd (MockSTT.processAll MockSTT.initMock calls)) in
  ts = List.map (fun j => Some (nth (Nat.modulo j 10) MockSTT.mockResponses ""%string))
         (seq 0 (List.length ts)).
Proof. apply (mock_cycle_from calls MockSTT.initMock); simpl; lia. Qed.

Lemma mock_spaced_from calls : forall st,
  MockSTT.spaced (MockSTT.lastProcessTime st)
    (MockSTT.result_times (snd (MockSTT.processAll st calls))).
Proof.
  induction calls as [|c calls IH]; intros st; [exact I|].
  rewrite mock_processAll_cons; destruct c as [[[chunk o] now] conf]; cbn [snd].
  unfold MockSTT.result_times; cbn [flat_map]; fold MockSTT.result_times.
  destruct (mock_processAudio_cases st chunk o now conf) as [[Hn [_ Ht]]|[x [Hs [_ [Ht [Hle _]]]]]].
  - rewrite Hn; cbn [app].
    specialize (IH (fst (MockSTT.processAudio st chunk o now conf))); rewrite Ht in IH; exact IH.
  - rewrite Hs; cbn [app MockSTT.spaced]; split; [exact Hle|].
    specialize (IH (fst (MockSTT.processAudio st chunk o now conf))); rewrite Ht in IH; exact IH.
Qed.

(** X: over any sequence of calls to the mock service from its initial
    state, the calls that return a result are at least [minInterval]
    (1000 ms) apart, and the first is made at least 1000 ms after time 0. *)
Theorem mock_results_spaced calls :
  MockSTT.spaced 0 (MockSTT.result_times (snd (MockSTT.processAll MockSTT.initMock calls))).
Proof. apply (mock_spaced_from calls MockSTT.initMock). Qed.

(** X: when a mock call returns a result, its text is the current sentence
    of [mockResponses]; its [translatedText] is present exactly when
    translation is enabled and the target language differs from the source
    language, and is then the English sentence of [translations.en] for
    target [en] and the text itself for any other target; its language is
    the source language, or [sr] if that is empty; and the service's buffer
    is emptied and its time of last result set to [now]. *)
Theorem mock_result_fields st chunk o now conf st' r :
  MockSTT.currentIndex st < 10 ->
  MockSTT.processAudio st chunk o now conf = (st', Some r) ->
  let text := nth (MockSTT.currentIndex st) MockSTT.mockResponses ""%string in
  r_text r = Some text /\
  r_translatedText r =
    (if wants_translation o then
       Some (if String.eqb (opt_targetLanguage o) "en"
             then snd (nth (MockSTT.currentIndex st) MockSTT.translations_en (""%string, ""%string))
             else text)
     else None) /\
  r_language r = Some (js_or (Some (opt_sourceLanguage o)) "sr") /\
  MockSTT.audioBuffer st' = [] /\ MockSTT.lastProcessTime st' = now.
Proof.
  intros Hi E text; unfold MockSTT.processAudio in E.
  destruct (_ || _)%bool; [discriminate|].
  cbn in E; inversion E; subst; cbn.
  split; [reflexivity|]; split; [|split; [reflexivity|split; reflexivity]].
  unfold wants_translation, MockSTT.translateText.
  destruct (_ && _)%bool; [|reflexivity].
  destruct (String.eqb (opt_targetLanguage o) "en"); [|reflexivity].
  remember (MockSTT.currentIndex st) as i eqn:Ei; clear - Hi.
  do 10 (destruct i as [|i]; [reflexivity|]); lia.
Qed.

Lemma mock_result_fields_witness :
  exists st' r,
    MockSTT.processAudio (MockSTT.mkMock 2 0 []) (audio_bytes 1000)
      (mkOptions 0 "sr"%string "en"%string true) 5000 90 = (st', Some r) /\
    r_translatedText r = Some "Today we will talk about artificial intelligence."%string.
Proof.
  eexists; eexists; split; [vm_compute; reflexivity|].
  destruct (mock_result_fields (MockSTT.mkMock 2 0 []) (audio_bytes 1000)
              (mkOptions 0 "sr"%string "en"%string true) 5000 90 _ _
              (ltac:(simpl; lia)) (ltac:(vm_compute; reflexivity))) as [_ [Ht _]].
  rewrite Ht; vm_compute; reflexivity.
Defined.

(** ** The Whisper style services *)

Lemma cap_bound (M : N) (b : bytes) :
  (0 < M)%N ->
  (N.of_nat (List.length (if N.ltb M (N.of_nat (List.length b))
                          then slice_neg b (N.to_nat M) else b)) <= M)%N.
Proof.
  intros HM; destruct (N.ltb_spec M (N.of_nat (List.length b))); [|lia].
  unfold slice_neg; destruct (Nat.eqb_spec (N.to_nat M) 0); [lia|].
  rewrite length_skipn; lia.
Qed.


Lemma openai_step_bound key st chunk o req tr :
  (N.of_nat (List.length (OpenAISTT.audioBuffer st)) <= OpenAISTT.maxBufferSize)%N ->
  (N.of_nat (List.length (OpenAISTT.audioBuffer
     (fst (OpenAISTT.processAudio key st chunk o req tr)))) <= OpenAISTT.maxBufferSize)%N.
Proof.
  intros H; unfold OpenAISTT.processAudio.
  destruct (if OpenAISTT.isInitialized st then Some st
            else if key then Some (OpenAISTT.mkO true (OpenAISTT.audioBuffer st)) else None)
    as [st1|]; [|exact H].
  destruct (N.ltb_spec (N.of_nat (List.length (OpenAISTT.audioBuffer st1 ++ chunk)))
              OpenAISTT.bufferThreshold) as [Hl|Hl].
  - cbn [fst OpenAISTT.audioBuffer]; unfold OpenAISTT.bufferThreshold, OpenAISTT.maxBufferSize in *; lia.
  - destruct req as [t|m]; cbn [fst].
    + destruct (truthy_text (resp_text t)); cbn; lia.
    + cbn [OpenAISTT.audioBuffer]; apply cap_bound; unfold OpenAISTT.maxBufferSize; lia.
Qed.

Lemma openai_processAll_cons key st c calls :
  OpenAISTT.processAll key st (c :: calls) =
  let '(chunk, o, req, tr) := c in
  let p := OpenAISTT.processAudio key st chunk o req tr in
  (fst (OpenAISTT.processAll key (fst p) calls), snd p :: snd (OpenAISTT.processAll key (fst p) calls)).
Proof.
  destruct c as [[[chunk o] req] tr]; simpl.
  destruct (OpenAISTT.processAudio key st chunk o req tr) as [st1 r]; simpl.
  destruct (OpenAISTT.processAll key st1 calls); reflexivity.
Qed.

(** X: for calls to the OpenAI service made one after another from its
    initial state, its accumulated audio buffer never exceeds
    [maxBufferSize] (25000000 bytes). *)
Theorem openai_buffer_bounded key calls :
  (N.of_nat (List.length (OpenAISTT.audioBuffer
     (fst (OpenAISTT.processAll key OpenAISTT.initOpenAI calls)))) <= OpenAISTT.maxBufferSize)%N.
Proof.
  assert (G : forall st, (N.of_nat (List.length (OpenAISTT.audioBuffer st)) <= OpenAISTT.maxBufferSize)%N ->
            (N.of_nat (List.length (OpenAISTT.audioBuffer
               (fst (OpenAISTT.processAll key st calls)))) <= OpenAISTT.maxBufferSize)%N).
  { induction calls as [|c calls IH]; intros st H; [exact H|].
    rewrite openai_processAll_cons; destruct c as [[[chunk o] req] tr]; cbn [fst].
    apply IH, openai_step_bound, H. }
  apply G; simpl; unfold OpenAISTT.maxBufferSize; lia.
Qed.

Lemma openai_below_from key calls : forall st,
  (OpenAISTT.isInitialized st = true \/ key = true) ->
  (N.of_nat (List.length (OpenAISTT.audioBuffer st ++ OpenAISTT.chunks_of calls))
     < OpenAISTT.bufferThreshold)%N ->
  snd (OpenAISTT.processAll key st calls) = repeat (Returned None) (List.length calls) /\
  OpenAISTT.audioBuffer (fst (OpenAISTT.processAll key st calls)) =
    OpenAISTT.audioBuffer st ++ OpenAISTT.chunks_of calls.
Proof.
  induction calls as [|c calls IH]; intros st Hi Hl.
  - simpl; rewrite app_nil_r; auto.
  - rewrite openai_processAll_cons; destruct c as [[[chunk o] req] tr]; cbn [fst snd].
    unfold OpenAISTT.chunks_of in Hl |- *; cbn [List.map List.concat] in Hl |- *;
      fold (OpenAISTT.chunks_of calls) in Hl |- *.
    assert (E : OpenAISTT.processAudio key st chunk o req tr =
                (OpenAISTT.mkO true (OpenAISTT.audioBuffer st ++ chunk), Returned None)).
    { unfold OpenAISTT.processAudio.
      assert (Hs : (if OpenAISTT.isInitialized st then Some st
                    else if key then Some (OpenAISTT.mkO true (OpenAISTT.audioBuffer st)) else None)
                   = Some (OpenAISTT.mkO true (OpenAISTT.audioBuffer st))).
      { destruct st as [[] b]; simpl in *; [reflexivity|destruct Hi as [H|H]; [discriminate H|rewrite H; reflexivity]]. }
      rewrite Hs; cbn [OpenAISTT.audioBuffer].
      destruct (N.ltb_spec (N.of_nat (List.length (OpenAISTT.audioBuffer st ++ chunk)))
                  OpenAISTT.bufferThreshold); [reflexivity|].
      rewrite !length_app in *; lia. }
    rewrite E; cbn [fst snd].
    destruct (IH (OpenAISTT.mkO true (OpenAISTT.audioBuffer st ++ chunk))) as [H1 H2];
      [left; reflexivity|cbn [OpenAISTT.audioBuffer]; rewrite <- app_assoc; exact Hl|].
    rewrite H1, H2; cbn [OpenAISTT.audioBuffer]; rewrite <- app_assoc; auto.
Qed.

(** X: when an OpenAI API key is set, calls to the OpenAI service made one
    after another from its initial state all return [null] as long as the
    audio passed in total stays below [bufferThreshold] (25000000 bytes);
    the service then holds exactly that audio, nothing is sent to the API. *)
Theorem openai_below_threshold calls :
  (N.of_nat (List.length (OpenAISTT.chunks_of calls)) < OpenAISTT.bufferThreshold)%N ->
  snd (OpenAISTT.processAll true OpenAISTT.initOpenAI calls) =
    repeat (Returned None) (List.length calls) /\
  OpenAISTT.audioBuffer (fst (OpenAISTT.processAll true OpenAISTT.initOpenAI calls)) =
    OpenAISTT.chunks_of calls.
Proof. intros H; apply (openai_below_from true calls OpenAISTT.initOpenAI); auto. Qed.

Lemma openai_below_threshold_witness :
  let calls := [(audio_bytes 3, mkOptions 0 "sr"%string "en"%string false,
                 inr "unused"%string, ""%string);
                (audio_bytes 2, mkOptions 0 "sr"%string "en"%string false,
                 inr "unused"%string, ""%string)] in
  snd (OpenAISTT.processAll true OpenAISTT.initOpenAI calls) =
    [Returned None; Returned None].
Proof.
  intros calls.
  apply (proj1 (openai_below_threshold calls (ltac:(apply N.ltb_lt; vm_compute; reflexivity)))).
Defined.

(** X: without configuration, the OpenAI service (no [OPENAI_API_KEY])
    and the Google service (no [GOOGLE_APPLICATION_CREDENTIALS]) throw the
    same configuration error on every call and never keep any audio. *)
Theorem missing_configuration_throws oCalls gCalls env :
  OpenAISTT.processAll false OpenAISTT.initOpenAI oCalls =
    (OpenAISTT.initOpenAI,
     repeat (Threw "OPENAI_API_KEY environment variable not set"%string) (List.length oCalls)) /\
  GoogleSTT.processAll false (GoogleSTT.initGoogle env) gCalls =
    (GoogleSTT.initGoogle env,
     repeat (Threw "GOOGLE_APPLICATION_CREDENTIALS environment variable not set"%string)
       (List.length gCalls)).
Proof.
  split.
  - induction oCalls as [|[[[chunk o] req] tr] calls IH]; [reflexivity|].
    simpl; simpl in IH; rewrite IH; reflexivity.
  - induction gCalls as [|[[chunk o] rec] calls IH]; [reflexivity|].
    simpl; simpl in IH; rewrite IH; reflexivity.
Qed.

(** ** The local Whisper server service *)

Lemma local_step_bound h st chunk o req tr :
  (N.of_nat (List.length (LocalSTT.audioBuffer st)) <= LocalSTT.maxBufferSize)%N ->
  (N.of_nat (List.length (LocalSTT.audioBuffer
     (fst (LocalSTT.processAudio h st chunk o req tr)))) <= LocalSTT.maxBufferSize)%N.
Proof.
  intros H; unfold LocalSTT.processAudio.
  destruct (if LocalSTT.isInitialized st then inl st
            else match h with
                 | inl status =>
                     if Nat.eqb status 200 then inl (LocalSTT.mkL true (LocalSTT.audioBuffer st))
                     else inr (LocalSTT.HealthCheckFailed status)
                 | inr e => inr e
                 end) as [st1|e]; [|exact H].
  destruct (N.ltb_spec (N.of_nat (List.length (LocalSTT.audioBuffer st1 ++ chunk)))
              LocalSTT.bufferThreshold) as [Hl|Hl].
  - cbn [fst LocalSTT.audioBuffer]; unfold LocalSTT.bufferThreshold, LocalSTT.maxBufferSize in *; lia.
  - destruct req as [t|e]; cbn [fst].
    + destruct (truthy_text (resp_text t)); cbn; lia.
    + cbn [LocalSTT.audioBuffer]; apply cap_bound; unfold LocalSTT.maxBufferSize; lia.
Qed.

Lemma local_processAll_cons st c calls :
  LocalSTT.processAll st (c :: calls) =
  let '(h, chunk, o, req, tr) := c in
  let p := LocalSTT.processAudio h st chunk o req tr in
  (fst (LocalSTT.processAll (fst p) calls), snd p :: snd (LocalSTT.processAll (fst p) calls)).
Proof.
  destruct c as [[[[h chunk] o] req] tr]; simpl.
  destruct (LocalSTT.processAudio h st chunk o req tr) as [st1 r]; simpl.
  destruct (LocalSTT.processAll st1 calls); reflexivity.
Qed.

(** X: for calls to the local Whisper service made one after another from
    its initial state, its accumulated audio buffer never exceeds
    [maxBufferSize] (25000000 bytes). *)
Theorem local_buffer_bounded calls :
  (N.of_nat (List.length (LocalSTT.audioBuffer
     (fst (LocalSTT.processAll LocalSTT.initLocal calls)))) <= LocalSTT.maxBufferSize)%N.
Proof.
  assert (G : forall st, (N.of_nat (List.length (LocalSTT.audioBuffer st)) <= LocalSTT.maxBufferSize)%N ->
            (N.of_nat (List.length (LocalSTT.audioBuffer
               (fst (LocalSTT.processAll st calls)))) <= LocalSTT.maxBufferSize)%N).
  { induction calls as [|c calls IH]; intros st H; [exact H|].
    rewrite local_processAll_cons; destruct c as [[[[h chunk] o] req] tr]; cbn [fst].
    apply IH, local_step_bound, H. }
  apply G; simpl; unfold LocalSTT.maxBufferSize; lia.
Qed.

Lemma local_below_from calls : forall st,
  Forall LocalSTT.healthy calls ->
  (N.of_nat (List.length (LocalSTT.audioBuffer st ++ LocalSTT.chunks_of calls))
     < LocalSTT.bufferThreshold)%N ->
  snd (LocalSTT.processAll st calls) = repeat (Returned None) (List.length calls) /\
  LocalSTT.audioBuffer (fst (LocalSTT.processAll st calls)) =
    LocalSTT.audioBuffer st ++ LocalSTT.chunks_of calls.
Proof.
  induction calls as [|c calls IH]; intros st Hh Hl.
  - simpl; rewrite app_nil_r; auto.
  - inversion Hh as [|? ? Hc Hh']; subst.
    rewrite local_processAll_cons; destruct c as [[[[h chunk] o] req] tr]; cbn [fst snd].
    unfold LocalSTT.healthy in Hc; subst h.
    unfold LocalSTT.chunks_of in Hl |- *; cbn [List.map List.concat] in Hl |- *;
      fold (LocalSTT.chunks_of calls) in Hl |- *.
    assert (E : LocalSTT.processAudio (inl 200) st chunk o req tr =
                (LocalSTT.mkL true (LocalSTT.audioBuffer st ++ chunk), Returned None)).
    { unfold LocalSTT.processAudio.
      assert (Hs : (if LocalSTT.isInitialized st then @inl _ LocalSTT.LocalError st
                    else if Nat.eqb 200 200 then inl (LocalSTT.mkL true (LocalSTT.audioBuffer st))
                         else inr (LocalSTT.HealthCheckFailed 200))
                   = inl (LocalSTT.mkL true (LocalSTT.audioBuffer st)))
        by (destruct st as [[] b]; reflexivity).
      cbn [Nat.eqb] in Hs |- *; rewrite Hs; cbn [LocalSTT.audioBuffer].
      destruct (N.ltb_spec (N.of_nat (List.length (LocalSTT.audioBuffer st ++ chunk)))
                  LocalSTT.bufferThreshold); [reflexivity|].
      rewrite !length_app in *; lia. }
    rewrite E; cbn [fst snd].
    destruct (IH (LocalSTT.mkL true (LocalSTT.audioBuffer st ++ chunk))) as [H1 H2];
      [exact Hh'|cbn [LocalSTT.audioBuffer]; rewrite <- app_assoc; exact Hl|].
    rewrite H1, H2; cbn [LocalSTT.audioBuffer]; rewrite <- app_assoc; auto.
Qed.

(** X: when every health check of the local Whisper server answers with
    status 200, calls made one after another from the service's initial
    state all return [null] as long as the audio passed in total stays
    below [bufferThreshold] (16000 bytes); the service then holds exactly
    that audio, no transcription request is made. *)
Theorem local_below_threshold calls :
  Forall LocalSTT.healthy calls ->
  (N.of_nat (List.length (LocalSTT.chunks_of calls)) < LocalSTT.bufferThreshold)%N ->
  snd (LocalSTT.processAll LocalSTT.initLocal calls) = repeat (Returned None) (List.length calls) /\
  LocalSTT.audioBuffer (fst (LocalSTT.processAll LocalSTT.initLocal calls)) =
    LocalSTT.chunks_of calls.
Proof. intros Hh Hl; apply (local_below_from calls LocalSTT.initLocal Hh Hl). Qed.

Lemma local_below_threshold_witness :
  let call := (@inl nat LocalSTT.LocalError 200, audio_bytes 1000,
               mkOptions 0 "sr"%string "en"%string false,
               @inr TranscriptionResponse LocalSTT.LocalError
                 (LocalSTT.RequestError None "unused"%string), ""%string) in
  snd (LocalSTT.processAll LocalSTT.initLocal (repeat call 15)) = repeat (Returned None) 15.
Proof.
  intros call.
  apply (proj1 (local_below_threshold (repeat call 15)
                  (ltac:(apply Forall_forall; intros x Hx; apply repeat_spec in Hx; subst x;
                         reflexivity))
                  (ltac:(apply N.ltb_lt; vm_compute; reflexivity)))).
Defined.



(** ** The Google service *)

Lemma google_processAll_cons cred st c calls :
  GoogleSTT.processAll cred st (c :: calls) =
  let '(chunk, o, rec) := c in
  let p := GoogleSTT.processAudio cred st chunk o rec in
  (fst (GoogleSTT.processAll cred (fst p) calls), snd p :: snd (GoogleSTT.processAll cred (fst p) calls)).
Proof.
  destruct c as [[chunk o] rec]; simpl.
  destruct (GoogleSTT.processAudio cred st chunk o rec) as [st1 r]; simpl.
  destruct (GoogleSTT.processAll cred st1 calls); reflexivity.
Qed.

Lemma google_failures_from cred calls : forall st,
  (GoogleSTT.isInitialized st = true \/ cred = true) ->
  Forall GoogleSTT.failing calls ->
  GoogleSTT.audioBuffer (fst (GoogleSTT.processAll cred st calls)) =
    GoogleSTT.audioBuffer st ++ GoogleSTT.chunks_of calls /\
  Forall (fun r => exists message, r = Threw message) (snd (GoogleSTT.processAll cred st calls)).
Proof.
  induction calls as [|c calls IH]; intros st Hi Hf.
  - simpl; rewrite app_nil_r; auto.
  - inversion Hf as [|? ? Hc Hf']; subst.
    rewrite google_processAll_cons; destruct c as [[chunk o] rec]; cbn [fst snd].
    destruct Hc as [msg ->].
    unfold GoogleSTT.chunks_of; cbn [List.map List.concat]; fold (GoogleSTT.chunks_of calls).
    assert (E : GoogleSTT.processAudio cred st chunk o (inr msg) =
                (GoogleSTT.mkG true (GoogleSTT.config_languageCode st)
                   (GoogleSTT.audioBuffer st ++ chunk), Threw msg)).
    { unfold GoogleSTT.processAudio; destruct st as [[] code b]; [reflexivity|].
      destruct Hi as [H|H]; [discriminate H|rewrite H; reflexivity]. }
    rewrite E; cbn [fst snd].
    destruct (IH (GoogleSTT.mkG true (GoogleSTT.config_languageCode st)
                    (GoogleSTT.audioBuffer st ++ chunk))) as [H1 H2]; [left; reflexivity|exact Hf'|].
    rewrite H1; cbn [GoogleSTT.audioBuffer]; rewrite <- app_assoc.
    split; [reflexivity|constructor; [exists msg; reflexivity|exact H2]].
Qed.

(** X: when every recognition request fails, calls to the Google service
    made one after another from its initial state (credentials set) all
    throw, and the service keeps all the audio passed so far: unlike the
    other services its buffer is not capped. *)
Theorem google_failures_accumulate env calls :
  Forall GoogleSTT.failing calls ->
  GoogleSTT.audioBuffer (fst (GoogleSTT.processAll true (GoogleSTT.initGoogle env) calls)) =
    GoogleSTT.chunks_of calls /\
  Forall (fun r => exists message, r = Threw message)
    (snd (GoogleSTT.processAll true (GoogleSTT.initGoogle env) calls)).
Proof. intros Hf; apply (google_failures_from true calls); auto. Qed.

Lemma google_failures_accumulate_witness :
  let calls := [(audio_bytes 3, mkOptions 0 "sr"%string "en"%string false,
                 @inr (list GoogleSTT.RecognitionResult) string "UNAVAILABLE"%string);
                (audio_bytes 2, mkOptions 0 "sr"%string "en"%string false,
                 @inr (list GoogleSTT.RecognitionResult) string "UNAVAILABLE"%string)] in
  GoogleSTT.audioBuffer (fst (GoogleSTT.processAll true (GoogleSTT.initGoogle None) calls)) =
    audio_bytes 5.
Proof.
  intros calls.
  rewrite (proj1 (google_failures_accumulate None calls
                    (ltac:(repeat constructor; eexists; reflexivity)))).
  reflexivity.
Defined.

(** X: when the Google recognition request of a call succeeds, the service
    empties its buffer whatever the answer: with no result the call returns
    [null], and with a first result that has no alternative it throws the
    [TypeError] of reading [transcript] of [undefined]; in both cases the
    audio passed so far is dropped. *)
Theorem google_resolved_clears cred st chunk o results st' r :
  (GoogleSTT.isInitialized st = true \/ cred = true) ->
  GoogleSTT.processAudio cred st chunk o (inl results) = (st', r) ->
  GoogleSTT.audioBuffer st' = [] /\ GoogleSTT.isInitialized st' = true /\
  (results = [] -> r = Returned None) /\
  (forall res rest, results = res :: rest -> GoogleSTT.alternatives res = [] ->
     r = Threw "Cannot read properties of undefined (reading 'transcript')"%string).
Proof.
  intros Hi E; unfold GoogleSTT.processAudio in E.
  assert (Hs : exists st1, (if GoogleSTT.isInitialized st then Some st
                else if cred then Some (GoogleSTT.mkG true (GoogleSTT.config_languageCode st)
                                          (GoogleSTT.audioBuffer st))
                else None) = Some st1).
  { destruct st as [[] code b]; [eexists; reflexivity|].
    destruct Hi as [H|H]; [discriminate H|rewrite H; eexists; reflexivity]. }
  destruct Hs as [st1 Hs]; rewrite Hs in E.
  destruct results as [|res rest].
  - inversion E; subst; cbn; split; [reflexivity|]; split; [reflexivity|].
    split; [reflexivity|intros ? ? H; discriminate H].
  - destruct (GoogleSTT.alternatives res) as [|alt alts] eqn:Ea; inversion E; subst; cbn.
    + split; [reflexivity|]; split; [reflexivity|]; split; [intros H; discriminate H|].
      intros res' rest' _ _; reflexivity.
    + split; [reflexivity|]; split; [reflexivity|]; split; [intros H; discriminate H|].
      intros res' rest' H Ha; inversion H; subst; congruence.
Qed.

Lemma google_resolved_clears_witness :
  let res := GoogleSTT.mkRecognition [] None true in
  let p := GoogleSTT.processAudio true (GoogleSTT.initGoogle None) (audio_bytes 4)
             (mkOptions 0 "sr"%string "en"%string false) (inl [res]) in
  GoogleSTT.audioBuffer (fst p) = [] /\
  snd p = Threw "Cannot read properties of undefined (reading 'transcript')"%string.
Proof.
  intros res p.
  destruct (google_resolved_clears true (GoogleSTT.initGoogle None) (audio_bytes 4)
              (mkOptions 0 "sr"%string "en"%string false) [res] (fst p) (snd p)
              (or_intror eq_refl) (surjective_pairing p)) as [Hb [_ [_ Ht]]].
  split; [exact Hb|exact (Ht res [] eq_refl eq_refl)].
Defined.
